(** * Video relevance search and transcript window of [src/app.py]

    The browser part of [src/app.py] (the script generated by
    [get_full_app_html]) holds the two tool handlers the voice assistant
    calls: [searchByTopics] ranks the catalog [VIDEOS_DATA] against a
    free-text query and [handleGetVideoContent] returns the transcript
    lines around a timestamp.  This file embeds both, with the string
    primitives they rely on, and proves the properties stated for them.
    It goes on to the other tool handlers of the page and the page state
    they share, to the escaping of the system prompt in
    [get_full_app_html], and to the pure parts of the ingestion script
    [src/generate_data.py].

    Strings are sequences of 8-bit characters; case conversion and the
    whitespace class are the ASCII ones (characters above 127 are neither
    letters nor spaces).  Numbers are integers ([Z]): the catalog is built
    with [int(seg.get("start", 0))] and [int(seg.get("end", 0))], and the
    tool schema declares [timestamp] an integer. *)

From Stdlib Require Import String Ascii ZArith List Bool Lia.
From Stdlib Require Import Sorted Permutation DecimalString DecimalPos DecimalZ.
Import ListNotations.

Local Open Scope string_scope.
Local Open Scope Z_scope.

(* ===================================================================== *)
(** * String primitives of the host language *)
(* ===================================================================== *)

Module JS.

(** The class [\s] restricted to ASCII: tab, line feed, vertical tab,
    form feed, carriage return and space. *)
Definition is_space (c : ascii) : bool :=
  let n := N_of_ascii c in
  (((9 <=? n) && (n <=? 13)) || (n =? 32))%N.

Definition is_upper (c : ascii) : bool :=
  let n := N_of_ascii c in ((65 <=? n) && (n <=? 90))%N.


Definition lower_char (c : ascii) : ascii :=
  if is_upper c then ascii_of_N (N_of_ascii c + 32) else c.


Fixpoint map_chars (f : ascii -> ascii) (s : string) : string :=
  match s with
  | EmptyString => EmptyString
  | String c s' => String (f c) (map_chars f s')
  end.

(** [s.toLowerCase()] and [s.toUpperCase()]. *)
Definition toLowerCase : string -> string := map_chars lower_char.

(** [w.startsWith(p)]. *)
Definition startsWith (w p : string) : bool := String.prefix p w.

(** [s.includes(p)]: [p] occurs at some position of [s]. *)
Fixpoint includes (s p : string) : bool :=
  String.prefix p s ||
  match s with
  | EmptyString => false
  | String _ s' => includes s' p
  end.

(** [a.join(sep)]. *)
Fixpoint join (sep : string) (a : list string) : string :=
  match a with
  | [] => ""
  | [x] => x
  | x :: rest => x ++ sep ++ join sep rest
  end.

Definition starts_with_space (s : string) : bool :=
  match s with
  | EmptyString => false
  | String c _ => is_space c
  end.

Definition push_char (c : ascii) (pieces : list string) : list string :=
  match pieces with
  | [] => [String c ""]
  | w :: rest => String c w :: rest
  end.

(** [s.split(/\s+/)]: the pieces between the maximal runs of whitespace.
    A run at either end of [s] leaves an empty piece there, and the empty
    string splits into one empty piece. *)
Fixpoint split_ws (s : string) : list string :=
  match s with
  | EmptyString => [""]
  | String c s' =>
      if is_space c
      then if starts_with_space s' then split_ws s' else "" :: split_ws s'
      else push_char c (split_ws s')
  end.

(** [!s] on a string: only the empty string is falsy. *)
Definition falsy (s : string) : bool :=
  match s with EmptyString => true | _ => false end.

(** [n.toString()] on an integer. *)
Definition toString (n : Z) : string := NilZero.string_of_int (Z.to_int n).

(** [s.padStart(n, '0')]. *)
Fixpoint zeros (n : nat) : string :=
  match n with O => "" | S k => String "0" (zeros k) end.

Definition padStart0 (n : nat) (s : string) : string :=
  zeros (n - String.length s) ++ s.

(** [Array.prototype.sort(cmp)].  The language fixes the result for a
    consistent comparator: ordered by [cmp], elements that compare equal
    keep their relative order.  Insertion from the right realises it:
    the element inserted is the earliest of those placed so far, so it
    goes in front of everything it does not compare greater than. *)
Section Sort.
Context {A : Type} (cmp : A -> A -> Z).

Fixpoint insert (x : A) (l : list A) : list A :=
  match l with
  | [] => [x]
  | y :: l' => if cmp x y <=? 0 then x :: l else y :: insert x l'
  end.

Definition sort (l : list A) : list A := fold_right insert [] l.
End Sort.

(** [a || b] on optional values ([undefined]/[null] is [None]). *)
Definition or_else {A : Type} (a : option A) (b : A) : A :=
  match a with Some x => x | None => b end.

End JS.

(* ===================================================================== *)
(** * Data model: the entries of [VIDEOS_DATA] *)
(* ===================================================================== *)

Record Segment := mkSegment {
  seg_start : Z;
  seg_end : Z;
  seg_text : string
}.

(** One object of [video_info].  [title] is [v.get("title")] and may be
    null; [topics], [keywords] and [transcript] are read with a default in
    the script ([video.topics || []]), so they are optional here. *)
Record Video := mkVideo {
  id : string;
  title : option string;
  topics : option (list string);
  keywords : option (list string);
  duration : string;
  duration_seconds : Z;
  url : string;
  subtitle_url : option string;
  transcript : option (list Segment)
}.

(** [{ ...video, score }]. *)
Record Scored := mkScored {
  video : Video;
  score : Z
}.

(* ===================================================================== *)
(** * Relevance search: [searchByTopics] *)
(* ===================================================================== *)

Definition topicsText (v : Video) : string :=
  JS.toLowerCase (JS.join " " (JS.or_else (topics v) [])).

Definition keywordsText (v : Video) : string :=
  JS.toLowerCase (JS.join " " (JS.or_else (keywords v) [])).

Definition titleText (v : Video) : string :=
  JS.toLowerCase (JS.or_else (title v) "").

Definition allText (v : Video) : string :=
  topicsText v ++ " " ++ keywordsText v ++ " " ++ titleText v.

(** [query.toLowerCase().split(/\s+/).filter(w => w.length > 1)]. *)
Definition queryWords (queryLower : string) : list string :=
  filter (fun w => (1 <? String.length w)%nat) (JS.split_ws queryLower).

(** The inner [allWords.forEach]: +3 for every piece of [allText] that
    starts with [word] and differs from it. *)
Definition prefixBonus (allWords : list string) (word : string) (score : Z) : Z :=
  fold_left
    (fun score w =>
       if JS.startsWith w word && negb (String.eqb w word)
       then score + 3 else score)
    allWords score.

(** The body of [queryWords.forEach] for one [word]. *)
Definition scoreWord (v : Video) (score : Z) (word : string) : Z :=
  let score := if JS.includes (topicsText v) word then score + 10 else score in
  let score := if JS.includes (keywordsText v) word then score + 8 else score in
  let score := if JS.includes (titleText v) word then score + 15 else score in
  let allWords := JS.split_ws (allText v) in
  prefixBonus allWords word score.

(** The callback of [VIDEOS_DATA.map]. *)
Definition scoreVideo (queryLower : string) (words : list string) (v : Video) : Scored :=
  let score := 0 in
  let score := if JS.includes (allText v) queryLower then score + 20 else score in
  let score := fold_left (scoreWord v) words score in
  mkScored v score.

(** The comparator [(a, b) => b.score - a.score]. *)
Definition byScoreDesc (a b : Scored) : Z := score b - score a.

(** The array [scored]. *)
Definition scored (VIDEOS_DATA : list Video) (query : string) : list Scored :=
  let queryLower := JS.toLowerCase query in
  map (scoreVideo queryLower (queryWords queryLower)) VIDEOS_DATA.

Definition searchByTopics (VIDEOS_DATA : list Video) (query : string) : list Scored :=
  if JS.falsy query || (length VIDEOS_DATA =? 0)%nat then []
  else
    JS.sort byScoreDesc
      (filter (fun v => 0 <? score v) (scored VIDEOS_DATA query)).

(* ===================================================================== *)
(** * Transcript window: [handleGetVideoContent] *)
(* ===================================================================== *)

(** [formatTime(seconds)].  On integers [Math.floor(seconds / 60)] is the
    floored quotient and [seconds % 60] the remainder with the sign of
    [seconds]. *)
Definition formatTime (seconds : Z) : string :=
  let mins := seconds / 60 in
  let secs := Z.rem seconds 60 in
  JS.toString mins ++ ":" ++ JS.padStart0 2 (JS.toString secs).

(** The arguments object of a tool call. *)
Record Args := mkArgs {
  arg_video_id : option string;
  arg_timestamp : option Z
}.

(** The object handed to [sendFunctionResult]. *)
Inductive FunctionResult :=
| Failure (message : string)
| Content (video_id : option string) (video_title : option string)
          (timestamp : Z) (content : string) (segments : list Segment)
          (message : string).

Definition success (r : FunctionResult) : bool :=
  match r with Failure _ => false | Content _ _ _ _ _ _ => true end.

(** What a handler asks of its collaborators, in call order. *)
Inductive Effect :=
| NavigateToTimestamp (timestamp : Z)
| SendFunctionResult (callId : string) (result : FunctionResult).

(** [args.video_id || currentVideoId]: an absent or empty id gives way to
    the current one. *)
Definition requestedVideoId (args : Args) (currentVideoId : option string)
  : option string :=
  match arg_video_id args with
  | Some s => if JS.falsy s then currentVideoId else Some s
  | None => currentVideoId
  end.

(** [v.id === videoId]. *)
Definition idIs (videoId : option string) (v : Video) : bool :=
  match videoId with
  | Some s => String.eqb (id v) s
  | None => false
  end.

Definition startRange (timestamp : Z) : Z := Z.max 0 (timestamp - 10).
Definition endRange (timestamp : Z) : Z := timestamp + 10.

(** The predicate of the [filter] over the transcript. *)
Definition inWindow (timestamp : Z) (seg : Segment) : bool :=
  ((startRange timestamp <=? seg_start seg) && (seg_start seg <=? endRange timestamp)) ||
  ((startRange timestamp <=? seg_end seg) && (seg_end seg <=? endRange timestamp)) ||
  ((seg_start seg <=? startRange timestamp) && (endRange timestamp <=? seg_end seg)).

Definition windowSegments (tr : list Segment) (timestamp : Z) : list Segment :=
  filter (inWindow timestamp) tr.

Definition dist (timestamp : Z) (seg : Segment) : Z :=
  Z.min (Z.abs (seg_start seg - timestamp)) (Z.abs (seg_end seg - timestamp)).

(** [dist < minDist], where [minDist] starts at [Infinity] ([None]). *)
Definition below (d : Z) (minDist : option Z) : bool :=
  match minDist with
  | None => true
  | Some m => d <? m
  end.

(** One step of the [forEach] that looks for the closest segment; the state
    is the pair of [closestSeg] and [minDist]. *)
Definition closestStep (timestamp : Z) (st : option Segment * option Z)
  (seg : Segment) : option Segment * option Z :=
  let d := dist timestamp seg in
  if below d (snd st) then (Some seg, Some d) else st.

Definition closestSeg (tr : list Segment) (timestamp : Z) : option Segment :=
  fst (fold_left (closestStep timestamp) tr (None, None)).

(** [relevantSegments] after the fallback. *)
Definition relevantSegments (tr : list Segment) (timestamp : Z) : list Segment :=
  let relevant := windowSegments tr timestamp in
  if (length relevant =? 0)%nat
  then match closestSeg tr timestamp with
       | Some seg => relevant ++ [seg]
       | None => relevant
       end
  else relevant.

Definition newline : string := String (ascii_of_nat 10) "".

Definition segmentLine (seg : Segment) : string :=
  "[" ++ formatTime (seg_start seg) ++ "-" ++ formatTime (seg_end seg) ++ "] "
      ++ seg_text seg ++ newline.

Definition contentText (segs : list Segment) : string :=
  fold_left (fun acc seg => acc ++ segmentLine seg) segs "".

Definition noContent : string := "Tidak ada konten di timestamp ini".
Definition notFound : string := "Video tidak ditemukan".

(** [contentText || 'Tidak ada konten di timestamp ini']. *)
Definition contentOrSentinel (text : string) : string :=
  if JS.falsy text then noContent else text.

Definition handleGetVideoContent (VIDEOS_DATA : list Video)
  (currentVideoId : option string) (args : Args) (callId : string)
  : list Effect :=
  let timestamp := JS.or_else (arg_timestamp args) 0 in
  let videoId := requestedVideoId args currentVideoId in
  match find (idIs videoId) VIDEOS_DATA with
  | None => [SendFunctionResult callId (Failure notFound)]
  | Some v =>
      let segs := relevantSegments (JS.or_else (transcript v) []) timestamp in
      let text := contentText segs in
      [ NavigateToTimestamp timestamp;
        SendFunctionResult callId
          (Content videoId (title v) timestamp (contentOrSentinel text) segs
             ("Konten video di detik " ++ JS.toString timestamp ++ ": " ++ text)) ]
  end.

(** The [{segments, text}] pair of a window over one video. *)
Definition windowAt (v : Video) (timestamp : Z) : list Segment * string :=
  let segs := relevantSegments (JS.or_else (transcript v) []) timestamp in
  (segs, contentOrSentinel (contentText segs)).

(* ===================================================================== *)
(** * The scoring rule as the specification words it *)
(* ===================================================================== *)

Module Spec.

(** The lowercased topics joined by single spaces. *)
Definition topicsText (v : Video) : string :=
  JS.join " " (map JS.toLowerCase (JS.or_else (topics v) [])).

(** The lowercased keywords joined by single spaces. *)
Definition keywordsText (v : Video) : string :=
  JS.join " " (map JS.toLowerCase (JS.or_else (keywords v) [])).

(** The lowercased title. *)
Definition titleText (v : Video) : string :=
  JS.toLowerCase (JS.or_else (title v) "").

(** Their space-separated concatenation. *)
Definition allText (v : Video) : string :=
  topicsText v ++ " " ++ keywordsText v ++ " " ++ titleText v.

(** The tokens of the lowercased query of length above one. *)
Definition tokens (query : string) : list string :=
  filter (fun w => (1 <? String.length w)%nat)
         (JS.split_ws (JS.toLowerCase query)).

Definition points (b : bool) (n : Z) : Z := if b then n else 0.

(** The whitespace-delimited tokens of [allText] that start with [w] and
    are not [w] itself. *)
Definition properExtensions (v : Video) (w : string) : list string :=
  filter (fun t => JS.startsWith t w && negb (String.eqb t w))
         (JS.split_ws (allText v)).

Definition wordScore (v : Video) (w : string) : Z :=
  points (JS.includes (topicsText v) w) 10
  + points (JS.includes (keywordsText v) w) 8
  + points (JS.includes (titleText v) w) 15
  + 3 * Z.of_nat (length (properExtensions v w)).

Fixpoint total (l : list Z) : Z :=
  match l with
  | [] => 0
  | x :: l' => x + total l'
  end.

Definition searchScore (query : string) (v : Video) : Z :=
  points (JS.includes (allText v) (JS.toLowerCase query)) 20
  + total (map (wordScore v) (tokens query)).

(** The selection rule of the transcript window: the segment starts in
    the window, or ends in it, or spans it. *)
Definition inWindowRule (timestamp : Z) (seg : Segment) : Prop :=
  let lo := Z.max 0 (timestamp - 10) in
  let hi := timestamp + 10 in
  lo <= seg_start seg <= hi \/
  lo <= seg_end seg <= hi \/
  (seg_start seg <= lo /\ hi <= seg_end seg).

(** [s] is the first segment of [tr] at the least boundary distance from
    [timestamp]: strictly nearer than every segment before it, at least
    as near as every segment after it. *)
Definition firstNearest (timestamp : Z) (tr : list Segment) (s : Segment) : Prop :=
  exists before after,
    tr = (before ++ s :: after)%list /\
    (forall x, In x before -> dist timestamp s < dist timestamp x) /\
    (forall x, In x after -> dist timestamp s <= dist timestamp x).

End Spec.

(** A query made of whitespace only (the empty one included). *)
Fixpoint whitespaceOnly (s : string) : bool :=
  match s with
  | EmptyString => true
  | String c s' => JS.is_space c && whitespaceOnly s'
  end.

(* ===================================================================== *)
(** * [searchByTopics] over the store of objects and arrays *)
(* ===================================================================== *)

(** Arrays and objects of the script are shared by reference:
    [VIDEOS_DATA.map] allocates one object per entry and a new array,
    [filter] allocates an array that holds the same objects, and [sort]
    reorders the array it is called on in place.  The store keeps the
    objects and the arrays by address; an array is a list of object
    addresses.  A computation faults ([None]) on a dangling address. *)
Module Heap.

(** Addresses are indices into the store. *)
Abbreviation addr := nat (only parsing).

(** An object with the fields of a video and, once scored, a [score]. *)
Record object := mkObject {
  fields : Video;
  scoreField : option Z
}.

Record store := mkStore {
  objects : list object;
  arrays : list (list addr)
}.

Definition M (A : Type) : Type := store -> option (A * store).

Definition ret {A : Type} (x : A) : M A := fun st => Some (x, st).

Definition bind {A B : Type} (m : M A) (k : A -> M B) : M B :=
  fun st => match m st with
            | Some (x, st') => k x st'
            | None => None
            end.

Notation "x <- m ;; k" := (bind m (fun x => k))
  (at level 61, m at next level, right associativity).

Fixpoint resolve (objs : list object) (addrs : list addr) : option (list object) :=
  match addrs with
  | [] => Some []
  | a :: rest =>
      match nth_error objs a, resolve objs rest with
      | Some o, Some os => Some (o :: os)
      | _, _ => None
      end
  end.

(** The objects an array holds, in order. *)
Definition contents (st : store) (a : addr) : option (list object) :=
  match nth_error (arrays st) a with
  | Some addrs => resolve (objects st) addrs
  | None => None
  end.

(** The elements of an array, each address with its object. *)
Definition elements (a : addr) : M (list (addr * object)) :=
  fun st =>
    match nth_error (arrays st) a with
    | Some addrs =>
        match resolve (objects st) addrs with
        | Some os => Some (combine addrs os, st)
        | None => None
        end
    | None => None
    end.

Definition newArray (addrs : list addr) : M addr :=
  fun st => Some (length (arrays st),
                  mkStore (objects st) (arrays st ++ [addrs])).

Definition newObjects (os : list object) : M (list addr) :=
  fun st => Some (seq (length (objects st)) (length os),
                  mkStore (objects st ++ os) (arrays st)).

Definition setArray (a : addr) (addrs : list addr) : M unit :=
  fun st =>
    if (a <? length (arrays st))%nat
    then Some (tt, mkStore (objects st)
                     (firstn a (arrays st) ++ addrs :: skipn (S a) (arrays st)))
    else None.

(** [a.length]. *)
Definition arrayLength (a : addr) : M nat :=
  es <- elements a ;; ret (length es).

(** [a.map(f)] for a callback that builds a fresh object. *)
Definition arrayMap (f : object -> object) (a : addr) : M addr :=
  es <- elements a ;;
  news <- newObjects (map (fun e => f (snd e)) es) ;;
  newArray news.

(** [a.filter(p)]. *)
Definition arrayFilter (p : object -> bool) (a : addr) : M addr :=
  es <- elements a ;;
  newArray (map fst (filter (fun e => p (snd e)) es)).

(** [a.sort(cmp)]: sorts [a] itself and returns it. *)
Definition arraySort (cmp : object -> object -> Z) (a : addr) : M addr :=
  es <- elements a ;;
  _ <- setArray a (map fst (JS.sort (fun e1 e2 => cmp (snd e1) (snd e2)) es)) ;;
  ret a.

(** [{ ...video, score }] for the score the callback computed. *)
Definition scoreObject (queryLower : string) (words : list string)
  (o : object) : object :=
  mkObject (fields o) (Some (score (scoreVideo queryLower words (fields o)))).

(** [v.score > 0]; a missing score compares false. *)
Definition positive (o : object) : bool :=
  match scoreField o with
  | Some s => 0 <? s
  | None => false
  end.

(** [b.score - a.score]; with a missing score the difference is not a
    number, which [sort] takes for zero. *)
Definition byScoreDesc (a b : object) : Z :=
  match scoreField a, scoreField b with
  | Some x, Some y => y - x
  | _, _ => 0
  end.

Definition searchByTopics (VIDEOS_DATA : addr) (query : string) : M addr :=
  if JS.falsy query then newArray []
  else
    n <- arrayLength VIDEOS_DATA ;;
    if (n =? 0)%nat then newArray []
    else
      let queryLower := JS.toLowerCase query in
      let words := queryWords queryLower in
      scored <- arrayMap (scoreObject queryLower words) VIDEOS_DATA ;;
      kept <- arrayFilter positive scored ;;
      arraySort byScoreDesc kept.

(** A result entry as an object. *)
Definition ofScored (r : Scored) : object :=
  mkObject (video r) (Some (score r)).

(** [st'] keeps everything [st] holds: the objects of [st] are a prefix of
    those of [st'], and every array of [st] is still there, unchanged. *)
Definition preserves (st st' : store) : Prop :=
  (exists fresh, objects st' = (objects st ++ fresh)%list) /\
  (length (arrays st) <= length (arrays st'))%nat /\
  (forall a l, nth_error (arrays st) a = Some l ->
               nth_error (arrays st') a = Some l).

(** Pairs of an address and the object it holds. *)
Definition consistent (objs : list object) (es : list (addr * object)) : Prop :=
  Forall (fun e => nth_error objs (fst e) = Some (snd e)) es.

End Heap.

(* ===================================================================== *)
(** * The page state and the tool handlers *)
(* ===================================================================== *)

(** What the handlers read and write besides the catalog: the variable
    [currentVideoId] and the source of the video element ([videoEl.src],
    empty until a video is loaded).  The texts written into the page
    (title, meta line, search banner) are left out. *)
Record Page := mkPage {
  currentVideoId : option string;
  videoSrc : string
}.

(** The objects the three handlers hand to [sendFunctionResult]:
    [Basic] for those of [handleGetVideoContent] and for
    [{success: false, message}], [Moved] for [{success: true, message}]
    of [handleNavigateVideo], [Found] for the hit of
    [handleSearchVideo]. *)
Inductive Reply :=
| Basic (r : FunctionResult)
| Moved (message : string)
| Found (video_id : string) (title : option string)
        (topics : option (list string)) (score : Z) (message : string).

Definition replySuccess (r : Reply) : bool :=
  match r with
  | Basic r => success r
  | Moved _ => true
  | Found _ _ _ _ _ => true
  end.

(** What a handler does to the player and the data channel, in order:
    [LoadVideo] is the load started by [showVideo] (with the time its
    [loadedmetadata] listener seeks to), [Seek] the assignment to
    [videoEl.currentTime] in [navigateToTimestamp]. *)
Inductive Event :=
| LoadVideo (url : string) (subtitle_url : option string) (startAt : Z)
| Seek (timestamp : Z)
| Send (callId : string) (reply : Reply).

(** ['text' + x] for a value that may be null. *)
Definition str (x : option string) : string :=
  match x with Some s => s | None => "null" end.

(** [showVideo(videoData, timestamp)] for an entry at hand; without a
    [url] it does nothing. *)
Definition showVideo (videoData : Video) (timestamp : Z) (pg : Page)
  : Page * list Event :=
  if JS.falsy (url videoData) then (pg, [])
  else (mkPage (Some (id videoData)) (url videoData),
        [LoadVideo (url videoData) (subtitle_url videoData) timestamp]).

(** [navigateToTimestamp(timestamp)]: seeks only when a video is loaded. *)
Definition navigateToTimestamp (timestamp : Z) (pg : Page) : list Event :=
  if JS.falsy (videoSrc pg) then [] else [Seek timestamp].

(** [videoId && videoId !== currentVideoId]. *)
Definition isOtherVideo (videoId : option string) (pg : Page) : bool :=
  match videoId with
  | Some s =>
      negb (JS.falsy s) &&
      match currentVideoId pg with
      | Some c => negb (String.eqb s c)
      | None => true
      end
  | None => false
  end.

Definition handleNavigateVideo (VIDEOS_DATA : list Video) (args : Args)
  (callId : string) (pg : Page) : Page * list Event :=
  let timestamp := JS.or_else (arg_timestamp args) 0 in
  let videoId := arg_video_id args in
  let '(pg', events) :=
    if isOtherVideo videoId pg
    then match find (idIs videoId) VIDEOS_DATA with
         | Some v => showVideo v timestamp pg
         | None => (pg, [])
         end
    else (pg, navigateToTimestamp timestamp pg) in
  (pg', events ++
        [Send callId (Moved ("Video berpindah ke detik " ++ JS.toString timestamp))])%list.

(** [(best.topics || []).slice(0, 5).join(', ')]. *)
Definition topicsPreview (v : Video) : string :=
  JS.join ", " (firstn 5 (JS.or_else (topics v) [])).

Definition handleSearchVideo (VIDEOS_DATA : list Video) (query : option string)
  (callId : string) (pg : Page) : Page * list Event :=
  let query := JS.or_else query "" in
  match searchByTopics VIDEOS_DATA query with
  | best :: _ =>
      let '(pg', events) := showVideo (video best) 0 pg in
      (pg', events ++
            [Send callId
               (Found (id (video best)) (title (video best))
                  (topics (video best)) (score best)
                  ("Menemukan video: " ++ str (title (video best))
                     ++ ". Video ini membahas tentang: "
                     ++ topicsPreview (video best)))])%list
  | [] =>
      (pg, [Send callId
              (Basic (Failure ("Tidak menemukan video yang relevan untuk: "
                                 ++ query ++ ". Coba kata kunci lain.")))])
  end.

(** One [Effect] of [handleGetVideoContent], carried out on the page. *)
Definition perform (pg : Page) (e : Effect) : list Event :=
  match e with
  | NavigateToTimestamp t => navigateToTimestamp t pg
  | SendFunctionResult callId r => [Send callId (Basic r)]
  end.

(** [handleGetVideoContent] on the page: it reads [currentVideoId] and
    writes nothing. *)
Definition getVideoContent (VIDEOS_DATA : list Video) (args : Args)
  (callId : string) (pg : Page) : Page * list Event :=
  (pg, flat_map (perform pg)
         (handleGetVideoContent VIDEOS_DATA (currentVideoId pg) args callId)).

(** The parsed [arguments] of a function call; every field may be
    missing ([{}] when the text does not parse). *)
Record CallArgs := mkCallArgs {
  call_args : Args;
  call_query : option string
}.

(** The case ['response.function_call_arguments.done'] of
    [handleServerEvent], after [JSON.parse]. *)
Definition handleFunctionCall (VIDEOS_DATA : list Video) (funcName : string)
  (a : CallArgs) (callId : string) (pg : Page) : Page * list Event :=
  if String.eqb funcName "navigate_video"
  then handleNavigateVideo VIDEOS_DATA (call_args a) callId pg
  else if String.eqb funcName "search_video"
  then handleSearchVideo VIDEOS_DATA (call_query a) callId pg
  else if String.eqb funcName "get_video_content"
  then getVideoContent VIDEOS_DATA (call_args a) callId pg
  else (pg, []).

(** A function call as it arrives: name, parsed arguments, call id. *)
Record Call := mkCall {
  call_name : string;
  call_arguments : CallArgs;
  call_id : string
}.

(** The calls of a conversation, handled one after the other. *)
Fixpoint handleCalls (VIDEOS_DATA : list Video) (calls : list Call) (pg : Page)
  : Page * list Event :=
  match calls with
  | [] => (pg, [])
  | c :: rest =>
      let '(pg1, ev1) :=
        handleFunctionCall VIDEOS_DATA (call_name c) (call_arguments c) (call_id c) pg in
      let '(pg2, ev2) := handleCalls VIDEOS_DATA rest pg1 in
      (pg2, (ev1 ++ ev2)%list)
  end.

(** The page before any call: [let currentVideoId = null], no source. *)
Definition initialPage : Page := mkPage None "".

(** The score the search gives [v] for [query]. *)
Definition videoScore (query : string) (v : Video) : Z :=
  score (scoreVideo (JS.toLowerCase query) (queryWords (JS.toLowerCase query)) v).



(** The page and the catalog agree: either nothing is loaded, or the
    current id and the source are those of one catalog entry that has a
    url. *)
Definition pageOk (VIDEOS_DATA : list Video) (pg : Page) : Prop :=
  (currentVideoId pg = None /\ videoSrc pg = "") \/
  (exists v, In v VIDEOS_DATA /\ currentVideoId pg = Some (id v) /\
             videoSrc pg = url v /\ url v <> "").

(** A string without any whitespace character. *)
Fixpoint spaceFree (s : string) : bool :=
  match s with
  | EmptyString => true
  | String c s' => negb (JS.is_space c) && spaceFree s'
  end.

(** The query, or one of its words, occurs in the text of the video. *)
Definition occursIn (query : string) (v : Video) : Prop :=
  JS.includes (allText v) (JS.toLowerCase query) = true \/
  exists w, In w (queryWords (JS.toLowerCase query)) /\
            JS.includes (allText v) w = true.

(* ===================================================================== *)
(** * Reading numbers back *)
(* ===================================================================== *)

Definition isDigit (c : ascii) : bool :=
  let n := N_of_ascii c in ((48 <=? n) && (n <=? 57))%N.

(** A string of decimal digits only. *)
Fixpoint digits (s : string) : bool :=
  match s with
  | EmptyString => true
  | String c s' => isDigit c && digits s'
  end.

(** The unsigned numeral of a non-negative integer. *)
Definition numeral (n : Z) : Decimal.uint :=
  match n with
  | Z.pos p => Pos.to_uint p
  | _ => Decimal.D0 Decimal.Nil
  end.

(** The number a string of decimal digits denotes, leading zeros
    allowed. *)
Definition readNat (s : string) : option Z :=
  option_map Z.of_uint (NilEmpty.uint_of_string s).

(* ===================================================================== *)
(** * The page generator and the ingestion script *)
(* ===================================================================== *)

(** The string and list operations of the scripting language used by
    [get_full_app_html] ([src/app.py]) and by [src/generate_data.py]. *)
Module Py.

(** [s.replace(old, new)] for a pattern [old] of one character, as in all
    four calls of the page generator: every occurrence, left to right. *)
Fixpoint replace1 (old : ascii) (new : string) (s : string) : string :=
  match s with
  | EmptyString => EmptyString
  | String c s' =>
      if Ascii.eqb c old then new ++ replace1 old new s'
      else String c (replace1 old new s')
  end.

(** [s[:n]]. *)
Fixpoint take (n : nat) (s : string) : string :=
  match n, s with
  | S k, String c s' => String c (take k s')
  | _, _ => EmptyString
  end.

(** [s.endswith(suffix)]. *)
Fixpoint endswith (s suffix : string) : bool :=
  String.eqb s suffix ||
  match s with
  | EmptyString => false
  | String _ s' => endswith s' suffix
  end.

(** [str(n)]: the decimal numeral, with a minus sign below zero. *)
Definition str (n : Z) : string := JS.toString n.

(** [f"{n:0Wd}"]: zero padding to width [W], the sign first and counted
    in the width. *)
Definition format_0d (width : nat) (n : Z) : string :=
  if n <? 0 then "-" ++ JS.padStart0 (width - 1) (str (- n))
  else JS.padStart0 width (str n).

(** [l.sort(key=k)]: ascending in the key, equal keys in their given
    order. *)
Definition sort_by_key {A : Type} (key : A -> Z) (l : list A) : list A :=
  JS.sort (fun a b => key a - key b) l.

(** The whitespace of [str.strip()] and [str.split()] below 128: tab to
    carriage return, the four separators 28 to 31, and space. *)
Definition is_space (c : ascii) : bool :=
  let n := N_of_ascii c in
  (((9 <=? n) && (n <=? 13)) || ((28 <=? n) && (n <=? 32)))%N.

(** A string of whitespace only. *)
Fixpoint blank (s : string) : bool :=
  match s with
  | EmptyString => true
  | String c s' => is_space c && blank s'
  end.

Fixpoint lstrip (s : string) : string :=
  match s with
  | EmptyString => EmptyString
  | String c s' => if is_space c then lstrip s' else s
  end.

Fixpoint rstrip (s : string) : string :=
  match s with
  | EmptyString => EmptyString
  | String c s' =>
      match rstrip s' with
      | EmptyString => if is_space c then EmptyString else String c EmptyString
      | r => String c r
      end
  end.

(** [s.strip()]. *)
Definition strip (s : string) : string := rstrip (lstrip s).

(** [s.startswith(p)]. *)
Definition startswith (s p : string) : bool := String.prefix p s.

(** [s[n:]]. *)
Fixpoint drop (n : nat) (s : string) : string :=
  match n, s with
  | S k, String _ s' => drop k s'
  | _, _ => s
  end.

(** [s.split(sep)] for a non-empty [sep]: the pieces between the
    occurrences of [sep], found left to right without overlap.  [skip]
    counts the characters of a separator still to pass, [cur] is the piece
    being read. *)
Fixpoint split_from (sep : string) (skip : nat) (cur : string) (s : string)
  : list string :=
  match s with
  | EmptyString => [cur]
  | String c s' =>
      match skip with
      | S k => split_from sep k cur s'
      | O =>
          if String.prefix sep s
          then cur :: split_from sep (String.length sep - 1) EmptyString s'
          else split_from sep 0 (cur ++ String c EmptyString) s'
      end
  end.

Definition split (sep : string) (s : string) : list string :=
  split_from sep 0 EmptyString s.

End Py.

Definition backslash : ascii := ascii_of_nat 92.
Definition quote : ascii := ascii_of_nat 39.
Definition lineFeed : ascii := ascii_of_nat 10.
Definition carriageReturn : ascii := ascii_of_nat 13.

(** [system_prompt_escaped] of [get_full_app_html]:
    [system_prompt.replace('\\', '\\\\').replace("'", "\\'")
      .replace('\n', '\\n').replace('\r', '\\r')]. *)
Definition system_prompt_escaped (system_prompt : string) : string :=
  Py.replace1 carriageReturn (String backslash "r")
    (Py.replace1 lineFeed (String backslash "n")
       (Py.replace1 quote (String backslash (String quote ""))
          (Py.replace1 backslash (String backslash (String backslash ""))
             system_prompt))).

(** What one character of the prompt becomes, all four replacements
    taken together. *)
Definition escapeChar (c : ascii) : string :=
  if Ascii.eqb c backslash then String backslash (String backslash "")
  else if Ascii.eqb c quote then String backslash (String quote "")
  else if Ascii.eqb c lineFeed then String backslash "n"
  else if Ascii.eqb c carriageReturn then String backslash "r"
  else String c "".

Fixpoint escapeAll (s : string) : string :=
  match s with
  | EmptyString => EmptyString
  | String c s' => escapeChar c ++ escapeAll s'
  end.

(** The value of the body of a single-quoted string literal of the page
    script, for the four escapes the generator writes.  A bare quote or
    line terminator ends or breaks the literal, and any other escape is
    not read here: [None]. *)
Fixpoint literalValue (body : string) : option string :=
  match body with
  | EmptyString => Some EmptyString
  | String c rest =>
      if Ascii.eqb c backslash then
        match rest with
        | String e rest' =>
            let char :=
              if Ascii.eqb e backslash then Some backslash
              else if Ascii.eqb e quote then Some quote
              else if Ascii.eqb e "n" then Some lineFeed
              else if Ascii.eqb e "r" then Some carriageReturn
              else None in
            match char, literalValue rest' with
            | Some x, Some v => Some (String x v)
            | _, _ => None
            end
        | EmptyString => None
        end
      else if Ascii.eqb c quote || Ascii.eqb c lineFeed || Ascii.eqb c carriageReturn
      then None
      else option_map (String c) (literalValue rest)
  end.

(** [c] is one of the characters of [s]. *)
Fixpoint occurs (c : ascii) (s : string) : bool :=
  match s with
  | EmptyString => false
  | String x s' => Ascii.eqb x c || occurs c s'
  end.

(** [video_id] of [process_video]: [f"video_{video_index:03d}"]. *)
Definition video_id (video_index : Z) : string :=
  "video_" ++ Py.format_0d 3 video_index.

(** The ids [main] gives out: [enumerate(video_list, 1)] numbers the
    videos from 1 and a video that fails ([process_video] returns [None])
    is left out with its number. *)
Fixpoint processed_ids_from (i : Z) (processed : list bool) : list string :=
  match processed with
  | [] => []
  | ok :: rest =>
      (if ok then [video_id i] else []) ++ processed_ids_from (i + 1) rest
  end.

Definition processed_ids (processed : list bool) : list string :=
  processed_ids_from 1 processed.

(** [format_eta], from the integer [int(seconds)] on:
    [seconds = max(0, int(seconds))] and the three fields. *)
Definition format_eta (int_seconds : Z) : string :=
  let seconds := Z.max 0 int_seconds in
  let hours := seconds / 3600 in
  let minutes := (seconds mod 3600) / 60 in
  let secs := seconds mod 60 in
  Py.format_0d 2 hours ++ ":" ++ Py.format_0d 2 minutes ++ ":" ++ Py.format_0d 2 secs.

(** An object of the bucket listing, as [list_videos] keeps it. *)
Record ObjectInfo := mkObjectInfo {
  object_name : string;
  size : Z;
  last_modified : option string
}.

(** [list_videos] on the objects the listing yields: the [.mp4] ones,
    smallest first, cut to [max_videos] when that is positive. *)
Definition list_videos (objects : list ObjectInfo) (max_videos : Z)
  : list ObjectInfo :=
  let videos :=
    filter (fun obj => Py.endswith (JS.toLowerCase (object_name obj)) ".mp4")
           objects in
  let videos := Py.sort_by_key size videos in
  if 0 <? max_videos then firstn (Z.to_nat max_videos) videos else videos.

(** [truncated_transcript] of [extract_metadata_with_llm], with
    [max_transcript_len = 4000]. *)
Definition max_transcript_len : nat := 4000.

Definition truncated_transcript (transcript_text : string) : string :=
  let truncated := Py.take max_transcript_len transcript_text in
  if (max_transcript_len <? String.length transcript_text)%nat
  then truncated ++ "..."
  else truncated.

Definition fence : string := "```".
Definition backtick : ascii := "`".

(** The text [extract_metadata_with_llm] hands to [json.loads]: the
    stripped answer, and when that opens with a code fence, what lies
    between the first fence and the next, less a leading [json],
    stripped. *)
Definition result_text (content : string) : string :=
  let result_text := Py.strip content in
  if Py.startswith result_text fence then
    let result_text := nth 1 (Py.split fence result_text) "" in
    let result_text :=
      if Py.startswith result_text "json" then Py.drop 4 result_text
      else result_text in
    Py.strip result_text
  else result_text.

(* ===================================================================== *)
(** * Sample data *)
(* ===================================================================== *)

Module Sample.

Definition segA : Segment := mkSegment 0 10 "a".
Definition segB : Segment := mkSegment 40 50 "b".

Definition newton : Video :=
  mkVideo "video_001" (Some "Hukum Newton") (Some ["gaya"; "gerak"])
          (Some ["force"; "motion"]) "0:50" 50 "videos/newton.mp4" None
          (Some [segA; segB]).

Definition energi : Video :=
  mkVideo "video_002" (Some "Energi Kinetik") (Some ["energi"; "gerak"])
          (Some ["energy"]) "1:10" 70 "videos/energi.mp4" None (Some []).

Definition gaya : Video :=
  mkVideo "video_003" (Some "Gaya Gesek") (Some ["gaya"; "gesekan"])
          None "2:05" 125 "videos/gaya.mp4" None None.

Definition catalog : list Video := [energi; newton; gaya].

(** The entry [newton] as an ingestion that did not lowercase would
    have written it. *)
Definition newtonUpper : Video :=
  mkVideo "video_001" (Some "HUKUM NEWTON") (Some ["Gaya"; "GERAK"])
          (Some ["Force"; "MOTION"]) "0:50" 50 "videos/newton.mp4" None
          (Some [segA; segB]).


(** The store at page load: the three catalog objects and the array
    [VIDEOS_DATA], at address 0, that holds them. *)
Definition store : Heap.store :=
  Heap.mkStore (map (fun v => Heap.mkObject v None) catalog) [[0; 1; 2]%nat].

End Sample.

(* ===================================================================== *)
(** * Facts about the string primitives *)
(* ===================================================================== *)

Module JSFacts.
Import JS.

Ltac each_char c := destruct c as [[] [] [] [] [] [] [] []].




Lemma map_chars_app (f : ascii -> ascii) (a b : string) :
  map_chars f (a ++ b) = map_chars f a ++ map_chars f b.
Proof. induction a as [|c a IH]; simpl; [reflexivity | now rewrite IH]. Qed.





Lemma toLowerCase_join (l : list string) :
  toLowerCase (join " " l) = join " " (map toLowerCase l).
Proof.
  unfold toLowerCase.
  induction l as [|x l IH]; [reflexivity|].
  destruct l as [|y l]; [reflexivity|].
  change (join " " (x :: y :: l)) with (x ++ " " ++ join " " (y :: l)).
  rewrite !map_chars_app, IH. reflexivity.
Qed.



Lemma split_ws_nonempty (s : string) : split_ws s <> [].
Proof.
  induction s as [|c s IH]; simpl; [discriminate|].
  destruct (is_space c).
  - destruct (starts_with_space s); [assumption | discriminate].
  - destruct (split_ws s); [congruence | discriminate].
Qed.


Lemma prefix_nil (s : string) : String.prefix "" s = true.
Proof. destruct s; reflexivity. Qed.

Lemma prefix_refl (s : string) : String.prefix s s = true.
Proof.
  induction s as [|c s IH]; simpl; [reflexivity|].
  destruct (ascii_dec c c); [assumption | congruence].
Qed.

Lemma includes_nil (s : string) : includes s "" = true.
Proof. destruct s; reflexivity. Qed.

Lemma includes_refl (s : string) : includes s s = true.
Proof. destruct s; simpl; [reflexivity|]. rewrite prefix_refl.
       destruct (ascii_dec a a); [reflexivity | congruence]. Qed.

(** A needle found in the tail of a string is found in the string. *)
Lemma includes_app_r (a s p : string) :
  includes s p = true -> includes (a ++ s) p = true.
Proof.
  intros H. induction a as [|c a IH]; simpl; [assumption|].
  rewrite IH. apply orb_true_r.
Qed.

End JSFacts.

(* ===================================================================== *)
(** * The score of one video *)
(* ===================================================================== *)

Section Scoring.
Variable v : Video.

Lemma topicsText_spec : topicsText v = Spec.topicsText v.
Proof. apply JSFacts.toLowerCase_join. Qed.

Lemma keywordsText_spec : keywordsText v = Spec.keywordsText v.
Proof. apply JSFacts.toLowerCase_join. Qed.

Lemma allText_spec : allText v = Spec.allText v.
Proof.
  unfold allText, Spec.allText.
  now rewrite topicsText_spec, keywordsText_spec.
Qed.

(** The inner loop adds three points per counted piece. *)
Lemma prefixBonus_count (allWords : list string) (word : string) (s : Z) :
  prefixBonus allWords word s =
  s + 3 * Z.of_nat (length (filter
        (fun t => JS.startsWith t word && negb (String.eqb t word)) allWords)).
Proof.
  unfold prefixBonus. revert s.
  induction allWords as [|w ws IH]; intros s; cbn [fold_left filter]; [simpl; lia|].
  rewrite IH.
  destruct (JS.startsWith w word && negb (String.eqb w word)); cbn [length]; lia.
Qed.

Lemma scoreWord_spec (s : Z) (word : string) :
  scoreWord v s word = s + Spec.wordScore v word.
Proof.
  unfold scoreWord, Spec.wordScore, Spec.properExtensions, Spec.points.
  rewrite prefixBonus_count, <- allText_spec, <- topicsText_spec, <- keywordsText_spec.
  unfold Spec.titleText, titleText.
  destruct (JS.includes (topicsText v) word),
           (JS.includes (keywordsText v) word),
           (JS.includes (JS.toLowerCase (JS.or_else (title v) "")) word); lia.
Qed.

(** The outer loop accumulates the per-word scores. *)
Lemma fold_scoreWord (words : list string) (s : Z) :
  fold_left (scoreWord v) words s = s + Spec.total (map (Spec.wordScore v) words).
Proof.
  revert s. induction words as [|w ws IH]; intros s; simpl; [lia|].
  rewrite IH, scoreWord_spec. lia.
Qed.


Lemma wordScore_nonneg (w : string) : 0 <= Spec.wordScore v w.
Proof.
  unfold Spec.wordScore, Spec.points.
  destruct (JS.includes (Spec.topicsText v) w),
           (JS.includes (Spec.keywordsText v) w),
           (JS.includes (Spec.titleText v) w); lia.
Qed.

End Scoring.

(** C2: the score [searchByTopics] gives a video is 20 when the lowercased
    query occurs in [allText], plus, for each token of the lowercased query
    longer than one character, 10, 8 and 15 for an occurrence in the topics,
    keywords and title text, and 3 for each whitespace-delimited token of
    [allText] that the token properly begins. *)
Theorem score_matches_rule (query : string) (v : Video) :
  score (scoreVideo (JS.toLowerCase query) (queryWords (JS.toLowerCase query)) v)
  = Spec.searchScore query v.
Proof.
  unfold scoreVideo, Spec.searchScore, Spec.tokens, queryWords, Spec.points.
  cbn [score]. rewrite fold_scoreWord, <- allText_spec.
  destruct (JS.includes (allText v) (JS.toLowerCase query)); lia.
Qed.

(* ===================================================================== *)
(** * Sorting by a descending key *)
(* ===================================================================== *)

Section SortAny.
Context {A : Type} (cmp : A -> A -> Z).

Lemma insert_In (x y : A) (l : list A) :
  In y (JS.insert cmp x l) <-> y = x \/ In y l.
Proof.
  induction l as [|z l IH]; simpl.
  - intuition congruence.
  - destruct (cmp x z <=? 0); simpl; [intuition congruence|].
    rewrite IH. intuition.
Qed.

Lemma insert_Permutation (x : A) (l : list A) :
  Permutation (JS.insert cmp x l) (x :: l).
Proof.
  induction l as [|z l IH]; simpl; [reflexivity|].
  destruct (cmp x z <=? 0); [reflexivity|].
  rewrite IH. apply perm_swap.
Qed.

Lemma sort_Permutation (l : list A) : Permutation (JS.sort cmp l) l.
Proof.
  induction l as [|x l IH]; simpl; [constructor|].
  rewrite insert_Permutation. now constructor.
Qed.

(** Sorting commutes with a map that respects the comparator. *)
Lemma sort_map {B : Type} (cmp' : B -> B -> Z) (f : A -> B) (l : list A) :
  (forall a b, cmp' (f a) (f b) = cmp a b) ->
  map f (JS.sort cmp l) = JS.sort cmp' (map f l).
Proof.
  intros Hf. induction l as [|x l IH]; [reflexivity|].
  cbn [JS.sort fold_right map]. fold (JS.sort cmp l). fold (JS.sort cmp' (map f l)).
  rewrite <- IH. generalize (JS.sort cmp l) as s. clear IH.
  induction s as [|y s IHs]; [reflexivity|].
  cbn [JS.insert map]. rewrite Hf.
  destruct (cmp x y <=? 0); cbn [map]; [reflexivity | now rewrite IHs].
Qed.

End SortAny.

Section SortByKey.
Context {A : Type} (key : A -> Z).

Let cmp (a b : A) : Z := key b - key a.
Let desc (a b : A) : Prop := key b <= key a.

Lemma insert_sorted (x : A) (l : list A) :
  StronglySorted desc l -> StronglySorted desc (JS.insert cmp x l).
Proof.
  induction 1 as [|z l Hs IH Hz]; simpl.
  - repeat constructor.
  - destruct (cmp x z <=? 0) eqn:E.
    + constructor; [now constructor|].
      apply Z.leb_le in E. unfold cmp in E.
      constructor; [unfold desc; lia|].
      rewrite Forall_forall in Hz |- *. intros y Hy.
      specialize (Hz y Hy). unfold desc in *. lia.
    + constructor; [assumption|].
      apply Z.leb_gt in E. unfold cmp in E.
      rewrite Forall_forall in Hz |- *. intros y Hy.
      apply insert_In in Hy. destruct Hy as [-> | Hy].
      * unfold desc. lia.
      * now apply Hz.
Qed.

Lemma sort_sorted (l : list A) : StronglySorted desc (JS.sort cmp l).
Proof.
  induction l as [|x l IH]; simpl; [constructor | now apply insert_sorted].
Qed.

(** Insertion never moves an element past one of the same key: the
    elements of any one key stay in the order they were given in. *)
Lemma insert_class (k : Z) (x : A) (l : list A) :
  filter (fun a => key a =? k) (JS.insert cmp x l) =
  filter (fun a => key a =? k) (x :: l).
Proof.
  induction l as [|z l IH]; [reflexivity|].
  simpl JS.insert. destruct (cmp x z <=? 0) eqn:E; [reflexivity|].
  apply Z.leb_gt in E. unfold cmp in E.
  cbn [filter] in IH |- *. rewrite IH.
  destruct (key x =? k) eqn:Ex, (key z =? k) eqn:Ez; try reflexivity.
  apply Z.eqb_eq in Ex, Ez. lia.
Qed.

Lemma sort_class (k : Z) (l : list A) :
  filter (fun a => key a =? k) (JS.sort cmp l) =
  filter (fun a => key a =? k) l.
Proof.
  induction l as [|x l IH]; [reflexivity|].
  simpl JS.sort. rewrite insert_class. cbn [filter]. now rewrite IH.
Qed.

End SortByKey.

(* ===================================================================== *)
(** * The ranked result of [searchByTopics] *)
(* ===================================================================== *)

Lemma falsy_iff (s : string) : JS.falsy s = true <-> s = "".
Proof. destruct s; simpl; split; congruence. Qed.

Lemma scored_video (VIDEOS_DATA : list Video) (query : string) :
  map video (scored VIDEOS_DATA query) = VIDEOS_DATA.
Proof.
  unfold scored. rewrite map_map. cbn [video scoreVideo]. apply map_id.
Qed.

(** Past the guard the result is the sorted, filtered [scored] array; an
    empty catalog gives the same value on either side of the guard. *)
Lemma searchByTopics_unfold (VIDEOS_DATA : list Video) (query : string) :
  query <> "" ->
  searchByTopics VIDEOS_DATA query =
  JS.sort byScoreDesc (filter (fun r => 0 <? score r) (scored VIDEOS_DATA query)).
Proof.
  intros Hq. unfold searchByTopics.
  destruct (JS.falsy query) eqn:F; [apply falsy_iff in F; contradiction|].
  destruct VIDEOS_DATA; reflexivity.
Qed.

Lemma filter_filter {A : Type} (f g : A -> bool) (l : list A) :
  filter f (filter g l) = filter (fun a => f a && g a) l.
Proof.
  induction l as [|a l IH]; [reflexivity|]. cbn [filter].
  destruct (g a); cbn [filter]; rewrite IH; [|rewrite andb_false_r; reflexivity].
  rewrite andb_true_r. reflexivity.
Qed.

(** Membership in the result, for a query that passes the guard. *)
Lemma searchByTopics_In (VIDEOS_DATA : list Video) (query : string) (r : Scored) :
  query <> "" ->
  In r (searchByTopics VIDEOS_DATA query) <->
  In r (scored VIDEOS_DATA query) /\ 0 < score r.
Proof.
  intros Hq. rewrite (searchByTopics_unfold _ _ Hq).
  pose proof (sort_Permutation byScoreDesc
                (filter (fun r => 0 <? score r) (scored VIDEOS_DATA query))) as Hperm.
  split.
  - intros H. apply (Permutation_in _ Hperm) in H.
    apply filter_In in H. rewrite Z.ltb_lt in H. exact H.
  - intros H. apply (Permutation_in _ (Permutation_sym Hperm)).
    apply filter_In. rewrite Z.ltb_lt. exact H.
Qed.

Lemma searchByTopics_empty_query (VIDEOS_DATA : list Video) :
  searchByTopics VIDEOS_DATA "" = [].
Proof. reflexivity. Qed.

(** C3: every returned entry is a scored catalog entry of score at least
    1 and the result is ordered by descending score; for a query that
    passes the guard (the empty one computes no score) the result holds
    exactly the scored entries of positive score, and the entries of any
    one score keep their catalog order. *)
Theorem search_ranked (VIDEOS_DATA : list Video) (query : string) :
  let res := searchByTopics VIDEOS_DATA query in
  let all := scored VIDEOS_DATA query in
  map video all = VIDEOS_DATA /\
  (forall r, In r res -> In r all /\ 1 <= score r) /\
  StronglySorted (fun a b => score b <= score a) res /\
  (query <> "" ->
     (forall r, In r res <-> In r all /\ 0 < score r) /\
     Permutation res (filter (fun r => 0 <? score r) all) /\
     (forall k, 0 < k ->
        filter (fun r => score r =? k) res = filter (fun r => score r =? k) all)).
Proof.
  intros res all. subst res all.
  split; [apply scored_video|].
  destruct (String.eqb_spec query "") as [-> | Hq].
  - rewrite searchByTopics_empty_query.
    split; [intros r []|]. split; [constructor | congruence].
  - split; [|split].
    + intros r H. apply (searchByTopics_In _ _ _ Hq) in H. split; [tauto | lia].
    + rewrite (searchByTopics_unfold _ _ Hq). apply (sort_sorted score).
    + intros _. split; [|split].
      * intros r. now apply searchByTopics_In.
      * rewrite (searchByTopics_unfold _ _ Hq). apply sort_Permutation.
      * intros k Hk. rewrite (searchByTopics_unfold _ _ Hq).
        unfold byScoreDesc. rewrite (sort_class score), filter_filter.
        apply filter_ext. intros r.
        destruct (score r =? k) eqn:E; [|reflexivity].
        apply Z.eqb_eq in E. cbn [andb]. apply Z.ltb_lt. lia.
Qed.

Lemma search_ranked_witness :
  map (fun r => (id (video r), score r)) (searchByTopics Sample.catalog "gaya gerak")
    = [("video_001", 40); ("video_003", 25); ("video_002", 10)] /\
  map (fun r => (id (video r), score r)) (searchByTopics Sample.catalog "gerak")
    = [("video_002", 30); ("video_001", 30)] /\
  forall k, 0 < k ->
    filter (fun r => score r =? k) (searchByTopics Sample.catalog "gerak")
    = filter (fun r => score r =? k) (scored Sample.catalog "gerak").
Proof.
  split; [reflexivity|]. split; [reflexivity|].
  destruct (search_ranked Sample.catalog "gerak") as (_ & _ & _ & H).
  apply H. discriminate.
Defined.

(* ===================================================================== *)
(** * The guard, the case of the query and short tokens *)
(* ===================================================================== *)

(** C1 as stated fails: a query of one space passes the guard [!query],
    and the separators of [allText] contain it. *)
Lemma whitespace_query_matches :
  ~ (forall (VIDEOS_DATA : list Video) (query : string),
       whitespaceOnly query = true -> searchByTopics VIDEOS_DATA query = []).
Proof.
  intros H. specialize (H [Sample.newton] " " eq_refl).
  vm_compute in H. discriminate H.
Qed.

(** C1, amended: the empty query returns the empty sequence on every
    catalog, and every query returns the empty sequence on the empty
    catalog. *)
Theorem search_guard :
  (forall VIDEOS_DATA : list Video, searchByTopics VIDEOS_DATA "" = []) /\
  (forall query : string, searchByTopics [] query = []).
Proof.
  split.
  - intros VIDEOS_DATA. reflexivity.
  - intros query. unfold searchByTopics. cbn [length Nat.eqb].
    rewrite orb_true_r. reflexivity.
Qed.








(* ===================================================================== *)
(** * The transcript window *)
(* ===================================================================== *)

Lemma inWindow_rule (timestamp : Z) (seg : Segment) :
  inWindow timestamp seg = true <-> Spec.inWindowRule timestamp seg.
Proof.
  unfold inWindow, Spec.inWindowRule, startRange, endRange. cbv zeta.
  rewrite !orb_true_iff, !andb_true_iff, !Z.leb_le. tauto.
Qed.

Lemma windowSegments_In (tr : list Segment) (timestamp : Z) (seg : Segment) :
  In seg (windowSegments tr timestamp) <->
  In seg tr /\ Spec.inWindowRule timestamp seg.
Proof. unfold windowSegments. now rewrite filter_In, inWindow_rule. Qed.

Lemma relevantSegments_window (tr : list Segment) (timestamp : Z) :
  windowSegments tr timestamp <> [] ->
  relevantSegments tr timestamp = windowSegments tr timestamp.
Proof.
  intros H. unfold relevantSegments.
  destruct (windowSegments tr timestamp); [congruence | reflexivity].
Qed.

(** When the id resolves to [v], the handler seeks and then sends the
    window of [v]. *)
Lemma handleGetVideoContent_found (VIDEOS_DATA : list Video)
  (currentVideoId : option string) (args : Args) (callId : string) (v : Video) :
  find (idIs (requestedVideoId args currentVideoId)) VIDEOS_DATA = Some v ->
  let timestamp := JS.or_else (arg_timestamp args) 0 in
  handleGetVideoContent VIDEOS_DATA currentVideoId args callId =
  [ NavigateToTimestamp timestamp;
    SendFunctionResult callId
      (Content (requestedVideoId args currentVideoId) (title v) timestamp
         (snd (windowAt v timestamp)) (fst (windowAt v timestamp))
         ("Konten video di detik " ++ JS.toString timestamp ++ ": "
            ++ contentText (fst (windowAt v timestamp)))) ].
Proof. intros H. unfold handleGetVideoContent. rewrite H. reflexivity. Qed.

(** C4: the window selects exactly the segments that start in
    [[max(0, t-10), t+10]], end in it, or span it, in transcript order and
    with no fallback once one is selected; on the transcript [a (0-10)],
    [b (40-50)] at second 45 the result is [b] with the text
    ["[0:40-0:50] b"] and a newline. *)
Theorem window_selection (tr : list Segment) (timestamp : Z) :
  (forall seg, inWindow timestamp seg = true <-> Spec.inWindowRule timestamp seg) /\
  (forall seg, In seg (windowSegments tr timestamp) <->
               In seg tr /\ Spec.inWindowRule timestamp seg) /\
  (forall tr1 tr2, tr = (tr1 ++ tr2)%list ->
     windowSegments tr timestamp =
     (windowSegments tr1 timestamp ++ windowSegments tr2 timestamp)%list) /\
  (windowSegments tr timestamp <> [] ->
     relevantSegments tr timestamp = windowSegments tr timestamp) /\
  windowAt Sample.newton 45 = ([Sample.segB], "[0:40-0:50] b" ++ newline) /\
  (forall callId,
     handleGetVideoContent Sample.catalog None
       (mkArgs (Some "video_001") (Some 45)) callId =
     [ NavigateToTimestamp 45;
       SendFunctionResult callId
         (Content (Some "video_001") (Some "Hukum Newton") 45
            ("[0:40-0:50] b" ++ newline) [Sample.segB]
            ("Konten video di detik 45: [0:40-0:50] b" ++ newline)) ]).
Proof.
  split; [intros seg; apply inWindow_rule|].
  split; [intros seg; apply windowSegments_In|].
  split; [intros tr1 tr2 ->; apply filter_app|].
  split; [apply relevantSegments_window|].
  split; [reflexivity | intros callId; reflexivity].
Qed.

(** The search of the closest segment, started with a candidate [s] that is
    first-nearest among the segments [done] already visited, ends on a
    segment that is first-nearest in the whole list. *)
Lemma closest_fold (timestamp : Z) (rest done : list Segment) (s : Segment) :
  Spec.firstNearest timestamp done s ->
  exists s',
    fold_left (closestStep timestamp) rest (Some s, Some (dist timestamp s))
      = (Some s', Some (dist timestamp s')) /\
    Spec.firstNearest timestamp (done ++ rest)%list s'.
Proof.
  revert done s. induction rest as [|x rest IH]; intros done s Hs.
  - exists s. rewrite app_nil_r. now split.
  - cbn [fold_left]. unfold closestStep at 2. cbn [snd below].
    replace (done ++ x :: rest)%list with ((done ++ [x]) ++ rest)%list
      by (rewrite <- app_assoc; reflexivity).
    destruct Hs as (before & after & Hdone & Hb & Ha).
    destruct (dist timestamp x <? dist timestamp s) eqn:E.
    + apply Z.ltb_lt in E. apply IH.
      exists done, []. split; [reflexivity|]. split; [|intros y []].
      intros y Hy. rewrite Hdone in Hy. apply in_app_or in Hy.
      destruct Hy as [Hy | [<- | Hy]].
      * specialize (Hb y Hy). lia.
      * exact E.
      * specialize (Ha y Hy). lia.
    + apply Z.ltb_ge in E. apply IH.
      exists before, (after ++ [x])%list. split; [|split].
      * rewrite Hdone, <- app_assoc. reflexivity.
      * exact Hb.
      * intros y Hy. apply in_app_or in Hy. destruct Hy as [Hy | [<- | []]];
          [now apply Ha | exact E].
Qed.

Lemma closestSeg_firstNearest (timestamp : Z) (tr : list Segment) :
  tr <> [] ->
  exists s, closestSeg tr timestamp = Some s /\ Spec.firstNearest timestamp tr s.
Proof.
  destruct tr as [|x tr]; [congruence | intros _].
  unfold closestSeg. cbn [fold_left]. unfold closestStep at 2. cbn [snd below].
  destruct (closest_fold timestamp tr [x] x) as (s & Hs & Hfirst).
  - exists [], []. split; [reflexivity|]. split; intros y [].
  - exists s. rewrite Hs. split; [reflexivity | exact Hfirst].
Qed.

Lemma closestSeg_nil (timestamp : Z) : closestSeg [] timestamp = None.
Proof. reflexivity. Qed.

(** C5: on a non-empty transcript none of whose segments meets the window
    rule, the result is the single segment at the least boundary distance
    [min(|start - t|, |end - t|)], the first one in transcript order among
    those at that distance. *)
Theorem fallback_nearest (tr : list Segment) (timestamp : Z)
  (Hne : tr <> [])
  (Hnone : forall seg, In seg tr -> ~ Spec.inWindowRule timestamp seg) :
  exists s,
    relevantSegments tr timestamp = [s] /\
    Spec.firstNearest timestamp tr s /\
    (forall x, In x tr -> dist timestamp s <= dist timestamp x).
Proof.
  destruct (closestSeg_firstNearest timestamp tr Hne) as (s & Hs & Hfirst).
  exists s. split; [|split; [exact Hfirst|]].
  - unfold relevantSegments.
    assert (Hw : windowSegments tr timestamp = []).
    { destruct (windowSegments tr timestamp) as [|y l] eqn:E; [reflexivity|].
      exfalso. assert (Hy : In y (windowSegments tr timestamp))
        by (rewrite E; now left).
      apply windowSegments_In in Hy. destruct Hy as [Hy1 Hy2].
      exact (Hnone y Hy1 Hy2). }
    rewrite Hw, Hs. reflexivity.
  - destruct Hfirst as (before & after & -> & Hb & Ha).
    intros x Hx. apply in_app_or in Hx. destruct Hx as [Hx | [<- | Hx]].
    + specialize (Hb x Hx). lia.
    + lia.
    + now apply Ha.
Qed.

Lemma fallback_nearest_witness :
  relevantSegments [Sample.segA; Sample.segB] 1000 = [Sample.segB] /\
  dist 1000 Sample.segB = 950 /\ dist 1000 Sample.segA = 990 /\
  exists s,
    relevantSegments [Sample.segA; Sample.segB] 1000 = [s] /\
    Spec.firstNearest 1000 [Sample.segA; Sample.segB] s /\
    (forall x, In x [Sample.segA; Sample.segB] -> dist 1000 s <= dist 1000 x).
Proof.
  split; [reflexivity|]. split; [reflexivity|]. split; [reflexivity|].
  apply (fallback_nearest [Sample.segA; Sample.segB] 1000).
  - discriminate.
  - intros seg Hseg Hrule. apply inWindow_rule in Hrule.
    destruct Hseg as [<- | [<- | []]]; vm_compute in Hrule; discriminate Hrule.
Defined.

Lemma contentOrSentinel_nonempty (text : string) : contentOrSentinel text <> "".
Proof. destruct text; discriminate. Qed.

(** C6: over an empty (or absent) transcript the window has no segment and
    its text is the sentinel ['Tidak ada konten di timestamp ini'], which
    is not the empty string; the handler sends exactly that. *)
Theorem empty_transcript_sentinel (v : Video) (timestamp : Z)
  (Hempty : JS.or_else (transcript v) [] = []) :
  windowAt v timestamp = ([], "Tidak ada konten di timestamp ini") /\
  snd (windowAt v timestamp) <> "" /\
  (forall VIDEOS_DATA currentVideoId args callId,
     find (idIs (requestedVideoId args currentVideoId)) VIDEOS_DATA = Some v ->
     JS.or_else (arg_timestamp args) 0 = timestamp ->
     exists message,
       handleGetVideoContent VIDEOS_DATA currentVideoId args callId =
       [ NavigateToTimestamp timestamp;
         SendFunctionResult callId
           (Content (requestedVideoId args currentVideoId) (title v) timestamp
              "Tidak ada konten di timestamp ini" [] message) ]).
Proof.
  assert (Hw : windowAt v timestamp = ([], "Tidak ada konten di timestamp ini")).
  { unfold windowAt. rewrite Hempty. reflexivity. }
  split; [exact Hw|]. split.
  - unfold windowAt. cbn [snd]. apply contentOrSentinel_nonempty.
  - intros cat cur args callId Hfind Ht. eexists.
    rewrite (handleGetVideoContent_found _ _ _ _ _ Hfind). cbv zeta.
    rewrite Ht, Hw. reflexivity.
Qed.

Lemma empty_transcript_sentinel_witness :
  windowAt Sample.energi 30 = ([], "Tidak ada konten di timestamp ini") /\
  windowAt Sample.gaya 0 = ([], "Tidak ada konten di timestamp ini").
Proof.
  split.
  - apply (empty_transcript_sentinel Sample.energi 30). reflexivity.
  - apply (empty_transcript_sentinel Sample.gaya 0). reflexivity.
Defined.

Lemma find_absent (videoId : option string) (VIDEOS_DATA : list Video) :
  (forall v, In v VIDEOS_DATA -> Some (id v) <> videoId) ->
  find (idIs videoId) VIDEOS_DATA = None.
Proof.
  intros H. induction VIDEOS_DATA as [|v l IH]; [reflexivity|].
  cbn [find]. destruct (idIs videoId v) eqn:E.
  - exfalso. apply (H v (or_introl eq_refl)).
    unfold idIs in E. destruct videoId as [s|]; [|discriminate].
    apply String.eqb_eq in E. now rewrite E.
  - apply IH. intros w Hw. apply H. now right.
Qed.

(** C7: when no catalog entry has the requested id, the handler sends the
    one result [{success: false, message: 'Video tidak ditemukan'}] and
    does nothing else: no seek, no segment, whatever the transcripts and
    the timestamp. *)
Theorem missing_video_not_found (VIDEOS_DATA : list Video)
  (currentVideoId : option string) (args : Args) (callId : string)
  (Habsent : forall v, In v VIDEOS_DATA ->
               Some (id v) <> requestedVideoId args currentVideoId) :
  handleGetVideoContent VIDEOS_DATA currentVideoId args callId =
    [SendFunctionResult callId (Failure "Video tidak ditemukan")] /\
  success (Failure "Video tidak ditemukan") = false.
Proof.
  split; [|reflexivity].
  unfold handleGetVideoContent. now rewrite (find_absent _ _ Habsent).
Qed.

Lemma missing_video_not_found_witness :
  handleGetVideoContent Sample.catalog (Some "video_001")
    (mkArgs (Some "video_009") (Some 45)) "call_1" =
  [SendFunctionResult "call_1" (Failure "Video tidak ditemukan")].
Proof.
  apply (missing_video_not_found Sample.catalog (Some "video_001")
           (mkArgs (Some "video_009") (Some 45)) "call_1").
  intros v Hv. destruct Hv as [<- | [<- | [<- | []]]]; discriminate.
Defined.

(* ===================================================================== *)
(** * The search leaves the store it found untouched *)
(* ===================================================================== *)

Module HeapFacts.

Lemma preserves_refl (st : Heap.store) : Heap.preserves st st.
Proof.
  split; [exists []; now rewrite app_nil_r|]. split; [lia | auto].
Qed.

Lemma preserves_trans (st1 st2 st3 : Heap.store) :
  Heap.preserves st1 st2 -> Heap.preserves st2 st3 -> Heap.preserves st1 st3.
Proof.
  intros ([f1 H1] & L1 & A1) ([f2 H2] & L2 & A2).
  split; [|split; [lia | auto]].
  exists (f1 ++ f2)%list. now rewrite H2, H1, app_assoc.
Qed.

Lemma resolve_app (objs fresh : list Heap.object) (addrs : list Heap.addr)
  (os : list Heap.object) :
  Heap.resolve objs addrs = Some os ->
  Heap.resolve (objs ++ fresh) addrs = Some os.
Proof.
  revert os. induction addrs as [|a addrs IH]; intros os H; [exact H|].
  cbn [Heap.resolve] in H |- *.
  destruct (nth_error objs a) as [o|] eqn:Ea; [|discriminate].
  destruct (Heap.resolve objs addrs) as [os'|]; [|discriminate].
  rewrite nth_error_app1 by (apply nth_error_Some; congruence).
  now rewrite Ea, (IH os' eq_refl).
Qed.

Lemma resolve_length (objs : list Heap.object) (addrs : list Heap.addr)
  (os : list Heap.object) :
  Heap.resolve objs addrs = Some os -> length addrs = length os.
Proof.
  revert os. induction addrs as [|a addrs IH]; intros os H; cbn in H.
  - now inversion H.
  - destruct (nth_error objs a); [|discriminate].
    destruct (Heap.resolve objs addrs) as [os'|]; [|discriminate].
    inversion H. cbn. now rewrite (IH os' eq_refl).
Qed.

(** The addresses handed out for fresh objects resolve to those objects. *)
Lemma resolve_fresh (objs fresh : list Heap.object) :
  Heap.resolve (objs ++ fresh) (seq (length objs) (length fresh)) = Some fresh.
Proof.
  revert objs. induction fresh as [|o fresh IH]; intros objs; [reflexivity|].
  cbn [length seq Heap.resolve].
  rewrite nth_error_app2, Nat.sub_diag by lia. cbn [nth_error].
  replace (objs ++ o :: fresh)%list with ((objs ++ [o]) ++ fresh)%list
    by (rewrite <- app_assoc; reflexivity).
  replace (S (length objs)) with (length (objs ++ [o])%list)
    by (rewrite length_app; cbn; lia).
  now rewrite IH.
Qed.

Lemma resolve_pairs (objs : list Heap.object) (es : list (Heap.addr * Heap.object)) :
  Heap.consistent objs es -> Heap.resolve objs (map fst es) = Some (map snd es).
Proof.
  unfold Heap.consistent.
  induction es as [|e es IH]; intros H; [reflexivity|].
  inversion H as [|e' es' He Hes]; subst.
  cbn [map Heap.resolve]. rewrite He, (IH Hes). reflexivity.
Qed.

Lemma combine_consistent (objs : list Heap.object) (addrs : list Heap.addr)
  (os : list Heap.object) :
  Heap.resolve objs addrs = Some os -> Heap.consistent objs (combine addrs os).
Proof.
  revert os. induction addrs as [|a addrs IH]; intros os H; cbn in H.
  - inversion H. constructor.
  - destruct (nth_error objs a) as [o|] eqn:Ea; [|discriminate].
    destruct (Heap.resolve objs addrs) as [os'|]; [|discriminate].
    inversion H. cbn [combine]. constructor; [exact Ea | now apply IH].
Qed.

Lemma combine_snd (objs : list Heap.object) (addrs : list Heap.addr)
  (os : list Heap.object) :
  Heap.resolve objs addrs = Some os -> map snd (combine addrs os) = os.
Proof.
  revert os. induction addrs as [|a addrs IH]; intros os H; cbn in H.
  - now inversion H.
  - destruct (nth_error objs a) as [o|]; [|discriminate].
    destruct (Heap.resolve objs addrs) as [os'|]; [|discriminate].
    inversion H. cbn [combine map snd]. now rewrite (IH os' eq_refl).
Qed.

Lemma filter_snd {A B : Type} (p : B -> bool) (es : list (A * B)) :
  map snd (filter (fun e => p (snd e)) es) = filter p (map snd es).
Proof.
  induction es as [|e es IH]; [reflexivity|].
  cbn [filter map]. destruct (p (snd e)); cbn [map]; now rewrite IH.
Qed.

Lemma contents_preserved (st st' : Heap.store) (a : Heap.addr)
  (os : list Heap.object) :
  Heap.preserves st st' ->
  Heap.contents st a = Some os -> Heap.contents st' a = Some os.
Proof.
  intros ([fresh Hf] & _ & Ha). unfold Heap.contents.
  destruct (nth_error (Heap.arrays st) a) as [addrs|] eqn:E; [|discriminate].
  intros H. rewrite (Ha a addrs E), Hf. now apply resolve_app.
Qed.

(** What [elements] returns on an array that resolves. *)
Lemma elements_spec (st : Heap.store) (a : Heap.addr) (os : list Heap.object) :
  Heap.contents st a = Some os ->
  exists es, Heap.elements a st = Some (es, st) /\
             map snd es = os /\ Heap.consistent (Heap.objects st) es /\
             nth_error (Heap.arrays st) a = Some (map fst es).
Proof.
  unfold Heap.contents, Heap.elements.
  destruct (nth_error (Heap.arrays st) a) as [addrs|]; [|discriminate].
  intros H. rewrite H. exists (combine addrs os).
  split; [reflexivity|]. split; [now apply (combine_snd (Heap.objects st))|].
  split; [now apply combine_consistent|].
  f_equal. pose proof (resolve_length _ _ _ H) as Hl.
  clear H. revert os Hl. induction addrs as [|x addrs IH]; intros [|o os] Hl;
    try discriminate; [reflexivity|].
  cbn [combine map fst]. f_equal. apply IH. now inversion Hl.
Qed.

Lemma arrayLength_spec (st : Heap.store) (a : Heap.addr) (os : list Heap.object) :
  Heap.contents st a = Some os ->
  Heap.arrayLength a st = Some (length os, st).
Proof.
  intros H. destruct (elements_spec st a os H) as (es & He & Hsnd & _).
  unfold Heap.arrayLength, Heap.bind. rewrite He. unfold Heap.ret.
  now rewrite <- Hsnd, length_map.
Qed.

Lemma newArray_contents (st : Heap.store) (addrs : list Heap.addr)
  (os : list Heap.object) :
  Heap.resolve (Heap.objects st) addrs = Some os ->
  Heap.contents
    (Heap.mkStore (Heap.objects st) (Heap.arrays st ++ [addrs]))
    (length (Heap.arrays st)) = Some os.
Proof.
  intros H. unfold Heap.contents. cbn [Heap.arrays Heap.objects].
  rewrite nth_error_app2, Nat.sub_diag by lia. exact H.
Qed.

Lemma newArray_preserves (st : Heap.store) (fresh : list Heap.object)
  (addrs : list Heap.addr) :
  Heap.preserves st
    (Heap.mkStore (Heap.objects st ++ fresh) (Heap.arrays st ++ [addrs])).
Proof.
  split; [now exists fresh|]. cbn [Heap.arrays]. split.
  - rewrite length_app. lia.
  - intros a l H. rewrite nth_error_app1; [exact H|].
    apply nth_error_Some. congruence.
Qed.

(** [map] leaves the store it found and returns a new array of new
    objects. *)
Lemma arrayMap_spec (f : Heap.object -> Heap.object) (st : Heap.store)
  (a : Heap.addr) (os : list Heap.object) :
  Heap.contents st a = Some os ->
  exists st',
    Heap.arrayMap f a st = Some (length (Heap.arrays st), st') /\
    Heap.preserves st st' /\
    Heap.contents st' (length (Heap.arrays st)) = Some (map f os).
Proof.
  intros H. destruct (elements_spec st a os H) as (es & He & Hsnd & _).
  unfold Heap.arrayMap, Heap.bind. rewrite He.
  unfold Heap.newObjects, Heap.newArray. cbn [Heap.arrays Heap.objects].
  eexists. split; [reflexivity|]. split; [apply newArray_preserves|].
  unfold Heap.contents. cbn [Heap.arrays Heap.objects].
  rewrite nth_error_app2, Nat.sub_diag by lia. cbn [nth_error].
  rewrite resolve_fresh, <- Hsnd, map_map. reflexivity.
Qed.

(** [filter] leaves the store it found and returns a new array that holds
    the objects that pass. *)
Lemma arrayFilter_spec (p : Heap.object -> bool) (st : Heap.store)
  (a : Heap.addr) (os : list Heap.object) :
  Heap.contents st a = Some os ->
  exists st',
    Heap.arrayFilter p a st = Some (length (Heap.arrays st), st') /\
    Heap.preserves st st' /\
    Heap.contents st' (length (Heap.arrays st)) = Some (filter p os).
Proof.
  intros H. destruct (elements_spec st a os H) as (es & He & Hsnd & Hc & _).
  unfold Heap.arrayFilter, Heap.bind. rewrite He. unfold Heap.newArray.
  eexists. split; [reflexivity|]. split.
  - pose proof (newArray_preserves st [] (map fst (filter (fun e => p (snd e)) es))) as Hp.
    now rewrite app_nil_r in Hp.
  - apply newArray_contents. rewrite <- Hsnd, <- filter_snd.
    apply resolve_pairs. unfold Heap.consistent in *.
    rewrite Forall_forall in Hc |- *. intros e Hin.
    apply filter_In in Hin. now apply Hc.
Qed.

Lemma nth_error_set {A : Type} (l : list A) (a b : nat) (x : A) :
  (a < length l)%nat ->
  nth_error (firstn a l ++ x :: skipn (S a) l) b =
  if (b =? a)%nat then Some x else nth_error l b.
Proof.
  intros Ha.
  assert (Hf : length (firstn a l) = a) by (rewrite length_firstn; lia).
  destruct (Nat.eqb_spec b a) as [-> | Hne].
  - rewrite nth_error_app2 by lia. now rewrite Hf, Nat.sub_diag.
  - destruct (Nat.lt_ge_cases b a) as [Hlt | Hge].
    + rewrite nth_error_app1 by lia. rewrite nth_error_firstn.
      destruct (Nat.ltb_spec b a); [reflexivity | lia].
    + rewrite nth_error_app2 by lia. rewrite Hf.
      destruct (b - a)%nat as [|k] eqn:Ek; [lia|]. cbn [nth_error].
      rewrite nth_error_skipn. f_equal. lia.
Qed.

(** [sort] rewrites the one array it is called on.  When that array was
    allocated after [st0], everything [st0] holds is kept. *)
Lemma arraySort_spec (cmp : Heap.object -> Heap.object -> Z)
  (st0 st : Heap.store) (a : Heap.addr) (os : list Heap.object) :
  Heap.preserves st0 st ->
  (length (Heap.arrays st0) <= a)%nat ->
  Heap.contents st a = Some os ->
  exists st',
    Heap.arraySort cmp a st = Some (a, st') /\
    Heap.preserves st0 st' /\
    Heap.contents st' a = Some (JS.sort cmp os).
Proof.
  intros ([fresh Hf] & Hlen & Harr) Hfresh H.
  destruct (elements_spec st a os H) as (es & He & Hsnd & Hc & Hn).
  assert (Ha : (a < length (Heap.arrays st))%nat)
    by (apply nth_error_Some; congruence).
  unfold Heap.arraySort, Heap.bind. rewrite He. unfold Heap.setArray.
  destruct (Nat.ltb_spec a (length (Heap.arrays st))) as [_ | Hge]; [|lia].
  unfold Heap.ret. eexists. split; [reflexivity|]. split; [split; [|split]|].
  - now exists fresh.
  - cbn [Heap.arrays]. rewrite length_app, length_firstn. cbn [length].
    rewrite length_skipn. lia.
  - intros b l Hb. cbn [Heap.arrays]. rewrite nth_error_set by exact Ha.
    assert (Hlt : (b < length (Heap.arrays st0))%nat)
      by (apply nth_error_Some; congruence).
    destruct (Nat.eqb_spec b a); [lia | now apply Harr].
  - unfold Heap.contents. cbn [Heap.arrays Heap.objects].
    rewrite nth_error_set, Nat.eqb_refl by exact Ha.
    rewrite <- Hsnd.
    rewrite <- (sort_map (fun e1 e2 => cmp (snd e1) (snd e2)) cmp snd es)
      by reflexivity.
    apply resolve_pairs. unfold Heap.consistent in *.
    rewrite Forall_forall in Hc |- *. intros e Hin. apply Hc.
    exact (Permutation_in _ (sort_Permutation _ es) Hin).
Qed.

Lemma filter_map_swap {A B : Type} (p : B -> bool) (f : A -> B) (l : list A) :
  filter p (map f l) = map f (filter (fun x => p (f x)) l).
Proof.
  induction l as [|x l IH]; [reflexivity|].
  cbn [map filter]. destruct (p (f x)); cbn [map]; now rewrite IH.
Qed.

(** The objects the store-level search computes are the entries the
    function over values computes. *)
Lemma ranked_objects (os : list Heap.object) (query : string) :
  JS.sort Heap.byScoreDesc
    (filter Heap.positive
       (map (Heap.scoreObject (JS.toLowerCase query)
               (queryWords (JS.toLowerCase query))) os))
  = map Heap.ofScored
      (JS.sort byScoreDesc
         (filter (fun r => 0 <? score r) (scored (map Heap.fields os) query))).
Proof.
  rewrite (sort_map byScoreDesc Heap.byScoreDesc Heap.ofScored) by reflexivity.
  f_equal. unfold scored. rewrite <- (filter_map_swap Heap.positive Heap.ofScored).
  f_equal. rewrite !map_map. reflexivity.
Qed.

(** One call on a store that holds the catalog [os] at [VIDEOS_DATA]. *)
Lemma search_run (VIDEOS_DATA : Heap.addr) (query : string) (st : Heap.store)
  (os : list Heap.object) :
  Heap.contents st VIDEOS_DATA = Some os ->
  exists r st',
    Heap.searchByTopics VIDEOS_DATA query st = Some (r, st') /\
    Heap.preserves st st' /\
    Heap.contents st' r =
      Some (map Heap.ofScored (searchByTopics (map Heap.fields os) query)).
Proof.
  intros H. unfold Heap.searchByTopics, searchByTopics.
  destruct (JS.falsy query) eqn:Fq.
  - unfold Heap.newArray. do 2 eexists. split; [reflexivity|]. split.
    + pose proof (newArray_preserves st [] []) as Hp. now rewrite app_nil_r in Hp.
    + now apply newArray_contents.
  - unfold Heap.bind at 1. rewrite (arrayLength_spec st VIDEOS_DATA os H).
    rewrite length_map. cbn [orb].
    destruct (length os =? 0)%nat eqn:En.
    + unfold Heap.newArray. do 2 eexists. split; [reflexivity|]. split.
      * pose proof (newArray_preserves st [] []) as Hp. now rewrite app_nil_r in Hp.
      * now apply newArray_contents.
    + cbv zeta.
      destruct (arrayMap_spec
                  (Heap.scoreObject (JS.toLowerCase query)
                     (queryWords (JS.toLowerCase query))) st VIDEOS_DATA os H)
        as (st1 & Hrun1 & Hp1 & Hc1).
      destruct (arrayFilter_spec Heap.positive st1 _ _ Hc1)
        as (st2 & Hrun2 & Hp2 & Hc2).
      assert (Hp02 : Heap.preserves st st2) by (eapply preserves_trans; eassumption).
      destruct (arraySort_spec Heap.byScoreDesc st st2 _ _ Hp02
                  (proj1 (proj2 Hp1)) Hc2)
        as (st3 & Hrun3 & Hp3 & Hc3).
      exists (length (Heap.arrays st1)), st3.
      unfold Heap.bind. rewrite Hrun1, Hrun2, Hrun3.
      split; [reflexivity|]. split; [exact Hp3|].
      rewrite Hc3, ranked_objects. reflexivity.
Qed.

End HeapFacts.

(** C9: two calls of the search with the same query, one after the other
    on the store that holds the catalog, both succeed and return arrays
    with the same entries in the same order, those of [searchByTopics] on
    the catalog; each call keeps every object and array that existed
    before it, so the catalog array and its entries are unchanged, and
    the second call leaves the result of the first as it was. *)
Theorem search_repeatable (VIDEOS_DATA : Heap.addr) (query : string)
  (st : Heap.store) (os : list Heap.object)
  (Hcat : Heap.contents st VIDEOS_DATA = Some os) :
  exists r1 st1 r2 st2,
    Heap.searchByTopics VIDEOS_DATA query st = Some (r1, st1) /\
    Heap.searchByTopics VIDEOS_DATA query st1 = Some (r2, st2) /\
    Heap.contents st1 r1 =
      Some (map Heap.ofScored (searchByTopics (map Heap.fields os) query)) /\
    Heap.contents st2 r2 = Heap.contents st1 r1 /\
    Heap.contents st2 r1 = Heap.contents st1 r1 /\
    Heap.preserves st st1 /\ Heap.preserves st1 st2 /\
    Heap.contents st1 VIDEOS_DATA = Some os /\
    Heap.contents st2 VIDEOS_DATA = Some os.
Proof.
  destruct (HeapFacts.search_run VIDEOS_DATA query st os Hcat)
    as (r1 & st1 & Hrun1 & Hp1 & Hres1).
  pose proof (HeapFacts.contents_preserved _ _ _ _ Hp1 Hcat) as Hcat1.
  destruct (HeapFacts.search_run VIDEOS_DATA query st1 os Hcat1)
    as (r2 & st2 & Hrun2 & Hp2 & Hres2).
  exists r1, st1, r2, st2.
  split; [exact Hrun1|]. split; [exact Hrun2|]. split; [exact Hres1|].
  split; [now rewrite Hres1, Hres2|].
  split; [rewrite Hres1; now apply (HeapFacts.contents_preserved st1 st2)|].
  split; [exact Hp1|]. split; [exact Hp2|]. split; [exact Hcat1|].
  now apply (HeapFacts.contents_preserved st1 st2).
Qed.

Lemma search_repeatable_witness :
  option_map (fun p => (fst p, Heap.arrays (snd p)))
    (Heap.searchByTopics 0 "gaya gerak" Sample.store)
    = Some (2%nat, [[0; 1; 2]; [3; 4; 5]; [4; 5; 3]]%nat) /\
  exists r1 st1 r2 st2,
    Heap.searchByTopics 0 "gaya gerak" Sample.store = Some (r1, st1) /\
    Heap.searchByTopics 0 "gaya gerak" st1 = Some (r2, st2) /\
    Heap.contents st1 r1 =
      Some (map Heap.ofScored (searchByTopics Sample.catalog "gaya gerak")) /\
    Heap.contents st2 r2 = Heap.contents st1 r1 /\
    Heap.contents st2 r1 = Heap.contents st1 r1 /\
    Heap.preserves Sample.store st1 /\ Heap.preserves st1 st2 /\
    Heap.contents st1 0 = Heap.contents Sample.store 0 /\
    Heap.contents st2 0 = Heap.contents Sample.store 0.
Proof.
  split; [reflexivity|].
  apply (search_repeatable 0 "gaya gerak" Sample.store
           (map (fun v => Heap.mkObject v None) Sample.catalog)).
  reflexivity.
Defined.

(* ===================================================================== *)
(** * The best match and the search handler *)
(* ===================================================================== *)

Lemma scored_In (VIDEOS_DATA : list Video) (query : string) (r : Scored) :
  In r (scored VIDEOS_DATA query) <->
  exists v, In v VIDEOS_DATA /\ r = mkScored v (videoScore query v).
Proof.
  unfold scored. rewrite in_map_iff. split.
  - intros (v & <- & Hv). exists v. split; [exact Hv | reflexivity].
  - intros (v & Hv & ->). exists v. split; [reflexivity | exact Hv].
Qed.

(** The first element a filter keeps is the first element of the list that
    passes. *)
Lemma filter_head {A : Type} (p : A -> bool) (l : list A) (x : A) (rest : list A) :
  filter p l = x :: rest ->
  exists before after,
    l = (before ++ x :: after)%list /\ p x = true /\
    (forall y, In y before -> p y = false).
Proof.
  induction l as [|a l IH]; [discriminate|].
  cbn [filter]. destruct (p a) eqn:Ea.
  - intros H. inversion H; subst. exists [], l.
    split; [reflexivity|]. split; [exact Ea | intros y []].
  - intros H. destruct (IH H) as (before & after & -> & Hx & Hb).
    exists (a :: before), after. split; [reflexivity|]. split; [exact Hx|].
    intros y [<- | Hy]; [exact Ea | now apply Hb].
Qed.

(** The head of the result is a scored entry of the highest score, and the
    first such entry of the catalog. *)
Lemma search_head (VIDEOS_DATA : list Video) (query : string)
  (best : Scored) (rest : list Scored) :
  searchByTopics VIDEOS_DATA query = best :: rest ->
  0 < score best /\
  exists before after,
    scored VIDEOS_DATA query = (before ++ best :: after)%list /\
    (forall x, In x before -> score x < score best) /\
    (forall x, In x after -> score x <= score best).
Proof.
  intros H.
  assert (Hq : query <> "") by (intros ->; discriminate H).
  pose proof (searchByTopics_unfold VIDEOS_DATA query Hq) as Hu. rewrite H in Hu.
  set (all := scored VIDEOS_DATA query) in *.
  set (pos := filter (fun r => 0 <? score r) all) in *.
  assert (Hsorted : StronglySorted (fun a b => score b <= score a) (best :: rest))
    by (rewrite Hu; apply (sort_sorted score)).
  assert (Hmem : forall x, In x (best :: rest) <-> In x all /\ 0 < score x)
    by (intros x; rewrite <- H; now apply searchByTopics_In).
  assert (Hpos : 0 < score best) by (apply Hmem; now left).
  assert (Hmax : forall x, In x all -> score x <= score best).
  { intros x Hx. destruct (Z.ltb_spec 0 (score x)) as [Hp | Hn]; [|lia].
    assert (Hin : In x (best :: rest)) by (apply Hmem; now split).
    destruct Hin as [<- | Hin]; [lia|].
    apply StronglySorted_inv in Hsorted. destruct Hsorted as [_ Hall].
    rewrite Forall_forall in Hall. now apply Hall. }
  split; [exact Hpos|].
  (* the class of the best score keeps its catalog order *)
  assert (Hclass : filter (fun r => score r =? score best) (best :: rest)
                   = filter (fun r => score r =? score best) all).
  { rewrite Hu. unfold byScoreDesc, pos. rewrite (sort_class score), filter_filter.
    apply filter_ext. intros r. destruct (score r =? score best) eqn:E; [|reflexivity].
    apply Z.eqb_eq in E. cbn [andb]. apply Z.ltb_lt. lia. }
  cbn [filter] in Hclass. rewrite Z.eqb_refl in Hclass. symmetry in Hclass.
  destruct (filter_head _ _ _ _ Hclass) as (before & after & Hall & _ & Hb).
  exists before, after. split; [exact Hall|]. split.
  - intros x Hx. specialize (Hb x Hx). apply Z.eqb_neq in Hb.
    assert (score x <= score best)
      by (apply Hmax; rewrite Hall; apply in_or_app; now left).
    lia.
  - intros x Hx. apply Hmax. rewrite Hall. apply in_or_app. right. now right.
Qed.

Lemma map_split_at {A B : Type} (f : A -> B) (l : list A) (l1 : list B) (y : B)
  (l2 : list B) :
  map f l = (l1 ++ y :: l2)%list ->
  exists a1 x a2, l = (a1 ++ x :: a2)%list /\ map f a1 = l1 /\ f x = y /\ map f a2 = l2.
Proof.
  revert l1. induction l as [|a l IH]; intros [|b l1] H; try discriminate.
  - inversion H. exists [], a, l. repeat split.
  - inversion H as [[Hb Hrest]]. destruct (IH l1 Hrest) as (a1 & x & a2 & -> & H1 & Hx & H2).
    exists (a :: a1), x, a2. cbn [map]. rewrite H1. repeat split; assumption.
Qed.

(** X1: when the search handler reports a hit, the video it names is a
    catalog entry whose score is at least 1 and the highest of the catalog,
    and no entry before it in the catalog scores as much. *)
Theorem search_hit_is_first_best (VIDEOS_DATA : list Video) (query : option string)
  (callId : string) (pg : Page) (vid : string) (t : option string)
  (tp : option (list string)) (sc : Z) (msg : string)
  (Hsent : In (Send callId (Found vid t tp sc msg))
              (snd (handleSearchVideo VIDEOS_DATA query callId pg))) :
  exists before v after,
    VIDEOS_DATA = (before ++ v :: after)%list /\
    id v = vid /\ title v = t /\ topics v = tp /\
    videoScore (JS.or_else query "") v = sc /\ 1 <= sc /\
    (forall x, In x before -> videoScore (JS.or_else query "") x < sc) /\
    (forall x, In x after -> videoScore (JS.or_else query "") x <= sc).
Proof.
  unfold handleSearchVideo in Hsent. cbv zeta in Hsent.
  set (q := JS.or_else query "") in *.
  destruct (searchByTopics VIDEOS_DATA q) as [|best rest] eqn:Hres.
  - cbn in Hsent. destruct Hsent as [Hs | []]. discriminate Hs.
  - destruct (search_head _ _ _ _ Hres) as (Hpos & before & after & Hall & Hb & Ha).
    assert (Hreply : vid = id (video best) /\ t = title (video best) /\
                     tp = topics (video best) /\ sc = score best).
    { unfold showVideo in Hsent.
      destruct (JS.falsy (url (video best))); cbn in Hsent.
      - destruct Hsent as [Hs | []]. inversion Hs. repeat split.
      - destruct Hsent as [Hs | [Hs | []]]; [discriminate Hs|].
        inversion Hs. repeat split. }
    destruct Hreply as (-> & -> & -> & ->).
    unfold scored in Hall.
    destruct (map_split_at _ _ _ _ _ Hall) as (b & v & a & Hcat & Hmb & Hv & Hma).
    exists b, v, a. subst best. cbn [video score] in *.
    split; [exact Hcat|]. repeat split; try reflexivity; try lia.
    + intros x Hx. apply (Hb (scoreVideo (JS.toLowerCase q) (queryWords (JS.toLowerCase q)) x)).
      rewrite <- Hmb. now apply in_map.
    + intros x Hx. apply (Ha (scoreVideo (JS.toLowerCase q) (queryWords (JS.toLowerCase q)) x)).
      rewrite <- Hma. now apply in_map.
Qed.

Lemma search_hit_is_first_best_witness :
  snd (handleSearchVideo Sample.catalog (Some "gerak") "call_1" initialPage) =
    [ LoadVideo "videos/energi.mp4" None 0;
      Send "call_1"
        (Found "video_002" (Some "Energi Kinetik") (Some ["energi"; "gerak"]) 30
           "Menemukan video: Energi Kinetik. Video ini membahas tentang: energi, gerak") ] /\
  exists before v after,
    Sample.catalog = (before ++ v :: after)%list /\
    id v = "video_002" /\ title v = Some "Energi Kinetik" /\
    topics v = Some ["energi"; "gerak"] /\
    videoScore "gerak" v = 30 /\ 1 <= 30 /\
    (forall x, In x before -> videoScore "gerak" x < 30) /\
    (forall x, In x after -> videoScore "gerak" x <= 30).
Proof.
  split; [reflexivity|].
  apply (search_hit_is_first_best Sample.catalog (Some "gerak") "call_1" initialPage
           "video_002" (Some "Energi Kinetik") (Some ["energi"; "gerak"]) 30
           "Menemukan video: Energi Kinetik. Video ini membahas tentang: energi, gerak").
  vm_compute. right. left. reflexivity.
Defined.

Lemma scored_positive_In (VIDEOS_DATA : list Video) (query : string) (v : Video) :
  query <> "" -> In v VIDEOS_DATA -> 0 < videoScore query v ->
  In (mkScored v (videoScore query v)) (searchByTopics VIDEOS_DATA query).
Proof.
  intros Hq Hv Hpos. apply (searchByTopics_In _ _ _ Hq). split; [|exact Hpos].
  apply scored_In. now exists v.
Qed.

(** The search returns nothing exactly when the query is empty or no
    catalog entry has a positive score. *)
Lemma search_empty_iff (VIDEOS_DATA : list Video) (query : string) :
  searchByTopics VIDEOS_DATA query = [] <->
  query = "" \/ forall v, In v VIDEOS_DATA -> videoScore query v <= 0.
Proof.
  split.
  - intros H. destruct (String.eqb_spec query "") as [-> | Hq]; [now left | right].
    intros v Hv. destruct (Z.leb_spec (videoScore query v) 0) as [|Hpos]; [assumption|].
    pose proof (scored_positive_In _ _ _ Hq Hv Hpos) as Hin.
    rewrite H in Hin. destruct Hin.
  - intros [-> | Hall]; [reflexivity|].
    destruct (searchByTopics VIDEOS_DATA query) as [|best rest] eqn:Hres; [reflexivity|].
    exfalso. assert (Hq : query <> "") by (intros ->; discriminate Hres).
    assert (Hin : In best (searchByTopics VIDEOS_DATA query)) by (rewrite Hres; now left).
    apply (searchByTopics_In _ _ _ Hq) in Hin. destruct Hin as [Hin Hpos].
    apply scored_In in Hin. destruct Hin as (v & Hv & ->).
    specialize (Hall v Hv). cbn [score] in Hpos. lia.
Qed.

(** X2: the search handler answers [{success: false, ...}], and leaves
    the page as it is, exactly when the query is missing or empty or no
    catalog entry scores above 0. *)
Theorem search_miss_iff (VIDEOS_DATA : list Video) (query : option string)
  (callId : string) (pg : Page) :
  (exists msg,
     handleSearchVideo VIDEOS_DATA query callId pg =
     (pg, [Send callId (Basic (Failure msg))])) <->
  (JS.or_else query "" = "" \/
   forall v, In v VIDEOS_DATA -> videoScore (JS.or_else query "") v <= 0).
Proof.
  rewrite <- search_empty_iff. unfold handleSearchVideo. cbv zeta.
  destruct (searchByTopics VIDEOS_DATA (JS.or_else query "")) as [|best rest].
  - split; [reflexivity | intros _; eexists; reflexivity].
  - split; [|discriminate]. intros [msg H]. exfalso.
    unfold showVideo in H. destruct (JS.falsy (url (video best))); discriminate H.
Qed.

(* ===================================================================== *)
(** * Every call is answered once *)
(* ===================================================================== *)









(* ===================================================================== *)
(** * The page stays in step with the catalog *)
(* ===================================================================== *)

Lemma showVideo_ok (VIDEOS_DATA : list Video) (v : Video) (t : Z) (pg : Page) :
  In v VIDEOS_DATA -> pageOk VIDEOS_DATA pg ->
  pageOk VIDEOS_DATA (fst (showVideo v t pg)).
Proof.
  intros Hv Hpg. unfold showVideo.
  destruct (JS.falsy (url v)) eqn:F; [exact Hpg|].
  right. exists v. cbn. repeat split; try assumption.
  intros E. rewrite E in F. discriminate F.
Qed.

Lemma search_head_In (VIDEOS_DATA : list Video) (query : string)
  (best : Scored) (rest : list Scored) :
  searchByTopics VIDEOS_DATA query = best :: rest -> In (video best) VIDEOS_DATA.
Proof.
  intros H. assert (Hq : query <> "") by (intros ->; discriminate H).
  assert (Hin : In best (searchByTopics VIDEOS_DATA query)) by (rewrite H; now left).
  apply (searchByTopics_In _ _ _ Hq) in Hin. destruct Hin as [Hin _].
  apply scored_In in Hin. destruct Hin as (v & Hv & ->). exact Hv.
Qed.

Lemma find_idIs_In (videoId : option string) (VIDEOS_DATA : list Video) (v : Video) :
  find (idIs videoId) VIDEOS_DATA = Some v ->
  In v VIDEOS_DATA /\ videoId = Some (id v).
Proof.
  intros H. apply find_some in H. destruct H as [Hin Hid]. split; [exact Hin|].
  unfold idIs in Hid. destruct videoId as [s|]; [|discriminate].
  apply String.eqb_eq in Hid. now rewrite Hid.
Qed.

Lemma handleFunctionCall_ok (VIDEOS_DATA : list Video) (funcName : string)
  (a : CallArgs) (callId : string) (pg : Page) :
  pageOk VIDEOS_DATA pg ->
  pageOk VIDEOS_DATA (fst (handleFunctionCall VIDEOS_DATA funcName a callId pg)).
Proof.
  intros Hpg. unfold handleFunctionCall.
  destruct (String.eqb funcName "navigate_video").
  { unfold handleNavigateVideo. cbv zeta.
    destruct (isOtherVideo (arg_video_id (call_args a)) pg); [|exact Hpg].
    destruct (find (idIs (arg_video_id (call_args a))) VIDEOS_DATA) as [v|] eqn:Hf;
      [|exact Hpg].
    apply find_idIs_In in Hf. destruct Hf as [Hv _].
    pose proof (showVideo_ok VIDEOS_DATA v
                  (JS.or_else (arg_timestamp (call_args a)) 0) pg Hv Hpg) as Hok.
    destruct (showVideo v (JS.or_else (arg_timestamp (call_args a)) 0) pg).
    exact Hok. }
  destruct (String.eqb funcName "search_video").
  { unfold handleSearchVideo. cbv zeta.
    destruct (searchByTopics VIDEOS_DATA (JS.or_else (call_query a) ""))
      as [|best rest] eqn:Hres; [exact Hpg|].
    pose proof (showVideo_ok VIDEOS_DATA (video best) 0 pg
                  (search_head_In _ _ _ _ Hres) Hpg) as Hok.
    destruct (showVideo (video best) 0 pg). exact Hok. }
  destruct (String.eqb funcName "get_video_content"); exact Hpg.
Qed.

Lemma handleCalls_ok (VIDEOS_DATA : list Video) (calls : list Call) (pg : Page) :
  pageOk VIDEOS_DATA pg ->
  pageOk VIDEOS_DATA (fst (handleCalls VIDEOS_DATA calls pg)).
Proof.
  revert pg. induction calls as [|c rest IH]; intros pg Hpg; [exact Hpg|].
  cbn [handleCalls].
  pose proof (handleFunctionCall_ok VIDEOS_DATA (call_name c) (call_arguments c)
                (call_id c) pg Hpg) as H1.
  destruct (handleFunctionCall VIDEOS_DATA (call_name c) (call_arguments c)
              (call_id c) pg) as [pg1 ev1].
  specialize (IH pg1 H1).
  destruct (handleCalls VIDEOS_DATA rest pg1) as [pg2 ev2]. exact IH.
Qed.

(** X4: after any sequence of tool calls from the initial page, either
    no video is loaded ([currentVideoId] is null and the player has no
    source), or [currentVideoId] and the player source are the id and the
    non-empty url of one and the same catalog entry. *)
Theorem page_follows_catalog (VIDEOS_DATA : list Video) (calls : list Call) :
  let pg := fst (handleCalls VIDEOS_DATA calls initialPage) in
  (currentVideoId pg = None /\ videoSrc pg = "") \/
  (exists v, In v VIDEOS_DATA /\ currentVideoId pg = Some (id v) /\
             videoSrc pg = url v /\ url v <> "").
Proof.
  apply (handleCalls_ok VIDEOS_DATA calls initialPage). left. split; reflexivity.
Qed.

Lemma find_idIs_exists (VIDEOS_DATA : list Video) (v0 : Video) :
  In v0 VIDEOS_DATA ->
  exists v, find (idIs (Some (id v0))) VIDEOS_DATA = Some v /\
            In v VIDEOS_DATA /\ id v = id v0.
Proof.
  intros Hin.
  destruct (find (idIs (Some (id v0))) VIDEOS_DATA) as [v|] eqn:Hf.
  - exists v. split; [reflexivity|].
    apply find_idIs_In in Hf. destruct Hf as [Hv Hid]. split; [exact Hv|].
    now inversion Hid.
  - exfalso. pose proof (find_none _ _ Hf v0 Hin) as Hn.
    unfold idIs in Hn. rewrite String.eqb_refl in Hn. discriminate Hn.
Qed.

(** X5: once some call of the conversation has loaded a video, a
    [get_video_content] call that names no video is never answered "not
    found": the player seeks to the timestamp and the answer is the
    transcript window of a catalog entry that has the current id. *)
Theorem content_of_current_video (VIDEOS_DATA : list Video) (calls : list Call)
  (timestamp : option Z) (callId : string)
  (Hloaded : currentVideoId (fst (handleCalls VIDEOS_DATA calls initialPage)) <> None) :
  let pg := fst (handleCalls VIDEOS_DATA calls initialPage) in
  let t := JS.or_else timestamp 0 in
  exists v message,
    In v VIDEOS_DATA /\ currentVideoId pg = Some (id v) /\
    getVideoContent VIDEOS_DATA (mkArgs None timestamp) callId pg =
    (pg, [ Seek t;
           Send callId
             (Basic (Content (Some (id v)) (title v) t
                       (snd (windowAt v t)) (fst (windowAt v t)) message)) ]).
Proof.
  intros pg t. subst pg.
  assert (Hok : pageOk VIDEOS_DATA (fst (handleCalls VIDEOS_DATA calls initialPage)))
    by (apply handleCalls_ok; left; split; reflexivity).
  unfold pageOk in Hok.
  set (pg := fst (handleCalls VIDEOS_DATA calls initialPage)) in *.
  destruct Hok as [[Hnone _] | (v0 & Hv0 & Hcur & Hsrc & Hurl)]; [contradiction|].
  destruct (find_idIs_exists VIDEOS_DATA v0 Hv0) as (v & Hfind & Hv & Hid).
  exists v. eexists. split; [exact Hv|]. split; [now rewrite Hcur, Hid|].
  unfold getVideoContent. f_equal.
  assert (Hreq : requestedVideoId (mkArgs None timestamp) (currentVideoId pg)
                 = Some (id v0)) by (cbn; exact Hcur).
  rewrite (handleGetVideoContent_found VIDEOS_DATA (currentVideoId pg)
             (mkArgs None timestamp) callId v)
    by (rewrite Hreq; exact Hfind).
  cbv zeta. rewrite Hreq. cbn [flat_map perform arg_timestamp app].
  unfold navigateToTimestamp. rewrite Hsrc.
  destruct (url v0) eqn:Eu; [congruence|]. cbn [JS.falsy app].
  rewrite Hid. reflexivity.
Qed.

Lemma content_of_current_video_witness :
  let calls := [mkCall "search_video" (mkCallArgs (mkArgs None None) (Some "newton")) "call_1"] in
  let pg := fst (handleCalls Sample.catalog calls initialPage) in
  pg = mkPage (Some "video_001") "videos/newton.mp4" /\
  exists v message,
    In v Sample.catalog /\ currentVideoId pg = Some (id v) /\
    getVideoContent Sample.catalog (mkArgs None (Some 45)) "call_2" pg =
    (pg, [ Seek 45;
           Send "call_2"
             (Basic (Content (Some (id v)) (title v) 45
                       (snd (windowAt v 45)) (fst (windowAt v 45)) message)) ]).
Proof.
  split; [reflexivity|].
  apply (content_of_current_video Sample.catalog
           [mkCall "search_video" (mkCallArgs (mkArgs None None) (Some "newton")) "call_1"]
           (Some 45) "call_2").
  discriminate.
Defined.

(** X6: a [navigate_video] call that names a video other than the current
    one which is not in the catalog changes nothing and moves no player,
    and still answers [{success: true, message: 'Video berpindah ke detik
    N'}]. *)
Theorem navigate_unknown_video (VIDEOS_DATA : list Video) (videoId : string)
  (timestamp : option Z) (callId : string) (pg : Page)
  (Hid : videoId <> "")
  (Hother : currentVideoId pg <> Some videoId)
  (Habsent : forall v, In v VIDEOS_DATA -> id v <> videoId) :
  handleNavigateVideo VIDEOS_DATA (mkArgs (Some videoId) timestamp) callId pg =
  (pg, [Send callId
          (Moved ("Video berpindah ke detik "
                    ++ JS.toString (JS.or_else timestamp 0)))]) /\
  replySuccess (Moved ("Video berpindah ke detik "
                         ++ JS.toString (JS.or_else timestamp 0))) = true.
Proof.
  split; [|reflexivity].
  unfold handleNavigateVideo. cbv zeta. cbn [arg_video_id arg_timestamp].
  assert (Ho : isOtherVideo (Some videoId) pg = true).
  { unfold isOtherVideo. destruct videoId; [congruence|]. cbn [JS.falsy negb andb].
    destruct (currentVideoId pg) as [c|]; [|reflexivity].
    apply negb_true_iff, String.eqb_neq. congruence. }
  rewrite Ho.
  rewrite (find_absent (Some videoId) VIDEOS_DATA); [reflexivity|].
  intros v Hv E. inversion E. now apply (Habsent v Hv).
Qed.

Lemma navigate_unknown_video_witness :
  handleNavigateVideo Sample.catalog (mkArgs (Some "video_009") (Some 30)) "call_1"
    (mkPage (Some "video_001") "videos/newton.mp4") =
  (mkPage (Some "video_001") "videos/newton.mp4",
   [Send "call_1" (Moved "Video berpindah ke detik 30")]).
Proof.
  apply (navigate_unknown_video Sample.catalog "video_009" (Some 30) "call_1"
           (mkPage (Some "video_001") "videos/newton.mp4")).
  - discriminate.
  - discriminate.
  - intros v [<- | [<- | [<- | []]]]; discriminate.
Defined.

(* ===================================================================== *)
(** * Numbers as text *)
(* ===================================================================== *)

Module NumberFacts.

Lemma append_assoc (a b c : string) : ((a ++ b) ++ c = a ++ (b ++ c))%string.
Proof. induction a as [|x a IH]; cbn; [reflexivity | now rewrite IH]. Qed.

Lemma append_nil_r (a : string) : (a ++ "" = a)%string.
Proof. induction a as [|x a IH]; cbn; [reflexivity | now rewrite IH]. Qed.

Lemma append_length (a b : string) :
  String.length (a ++ b) = (String.length a + String.length b)%nat.
Proof. induction a as [|x a IH]; cbn; [reflexivity | now rewrite IH]. Qed.

Lemma digits_app (a b : string) : digits (a ++ b) = digits a && digits b.
Proof.
  induction a as [|x a IH]; cbn; [reflexivity|].
  rewrite IH. now rewrite andb_assoc.
Qed.

Lemma digits_uint (u : Decimal.uint) : digits (NilEmpty.string_of_uint u) = true.
Proof. induction u; cbn; try reflexivity; exact IHu. Qed.

Lemma toString_numeral (n : Z) :
  0 <= n -> JS.toString n = NilEmpty.string_of_uint (numeral n).
Proof.
  intros Hn. unfold JS.toString, numeral.
  destruct n as [|p|p]; [reflexivity| |lia].
  cbn [Z.to_int NilZero.string_of_int]. unfold NilZero.string_of_uint.
  pose proof (DecimalPos.Unsigned.to_uint_nonnil p) as Hnn.
  destruct (Pos.to_uint p); [congruence | reflexivity ..].
Qed.

Lemma of_uint_numeral (n : Z) : 0 <= n -> Z.of_uint (numeral n) = n.
Proof.
  intros Hn. destruct n as [|p|p]; [reflexivity| |lia].
  unfold numeral, Z.of_uint. now rewrite DecimalPos.Unsigned.of_to.
Qed.

Lemma zeros_numeral (k : nat) (u : Decimal.uint) :
  (JS.zeros k ++ NilEmpty.string_of_uint u)%string =
  NilEmpty.string_of_uint (Nat.iter k Decimal.D0 u).
Proof. induction k as [|k IH]; cbn; [reflexivity | now rewrite IH]. Qed.

Lemma of_uint_zeros (k : nat) (u : Decimal.uint) :
  Z.of_uint (Nat.iter k Decimal.D0 u) = Z.of_uint u.
Proof. induction k as [|k IH]; [reflexivity | exact IH]. Qed.

(** A non-negative integer printed and padded with zeros reads back. *)
Lemma readNat_padded (k : nat) (n : Z) :
  0 <= n -> readNat (JS.zeros k ++ JS.toString n) = Some n.
Proof.
  intros Hn. unfold readNat.
  rewrite (toString_numeral n Hn), zeros_numeral, NilEmpty.usu.
  cbn [option_map]. now rewrite of_uint_zeros, of_uint_numeral.
Qed.

Lemma readNat_toString (n : Z) : 0 <= n -> readNat (JS.toString n) = Some n.
Proof. intros Hn. exact (readNat_padded 0 n Hn). Qed.

Lemma readNat_padStart0 (w : nat) (n : Z) :
  0 <= n -> readNat (JS.padStart0 w (JS.toString n)) = Some n.
Proof. intros Hn. unfold JS.padStart0. now apply readNat_padded. Qed.

Lemma digits_toString (n : Z) : 0 <= n -> digits (JS.toString n) = true.
Proof. intros Hn. rewrite (toString_numeral n Hn). apply digits_uint. Qed.

Lemma digits_zeros (k : nat) : digits (JS.zeros k) = true.
Proof. induction k as [|k IH]; [reflexivity | exact IH]. Qed.

Lemma digits_padStart0 (w : nat) (n : Z) :
  0 <= n -> digits (JS.padStart0 w (JS.toString n)) = true.
Proof.
  intros Hn. unfold JS.padStart0.
  now rewrite digits_app, digits_zeros, digits_toString.
Qed.

(** Two texts cut at their first non-digit agree part by part. *)
Lemma digits_cut (c : ascii) (a b x y : string) :
  isDigit c = false -> digits a = true -> digits b = true ->
  (a ++ String c x = b ++ String c y)%string -> a = b /\ x = y.
Proof.
  intros Hc. revert b. induction a as [|ca a IH]; intros [|cb b] Ha Hb H; cbn in *.
  - inversion H. now split.
  - inversion H; subst. apply andb_true_iff in Hb. destruct Hb as [Hb _]. congruence.
  - inversion H; subst. apply andb_true_iff in Ha. destruct Ha as [Ha _]. congruence.
  - inversion H; subst.
    apply andb_true_iff in Ha, Hb. destruct Ha as [_ Ha], Hb as [_ Hb].
    destruct (IH b Ha Hb H2) as [-> ->]. now split.
Qed.

(** Below one hundred the two-place field has exactly two characters. *)
Lemma two_places (n : Z) :
  0 <= n < 100 -> String.length (JS.padStart0 2 (JS.toString n)) = 2%nat.
Proof.
  intros Hn.
  assert (Hall : forallb
            (fun i => (String.length (JS.padStart0 2 (JS.toString (Z.of_nat i))) =? 2)%nat)
            (seq 0 100) = true) by (vm_compute; reflexivity).
  rewrite forallb_forall in Hall.
  specialize (Hall (Z.to_nat n)). rewrite Z2Nat.id in Hall by lia.
  apply Nat.eqb_eq, Hall, in_seq. lia.
Qed.

End NumberFacts.

(** X7: for a non-negative number of seconds, [formatTime] is the minutes
    in decimal, a colon and a seconds field of exactly two digits; both
    fields read back to [seconds / 60] and [seconds mod 60], so different
    times never print alike. *)
Theorem formatTime_reads_back (seconds : Z) (Hs : 0 <= seconds) :
  (exists mm ss,
     formatTime seconds = (mm ++ ":" ++ ss)%string /\
     digits mm = true /\ digits ss = true /\ String.length ss = 2%nat /\
     readNat mm = Some (seconds / 60) /\
     readNat ss = Some (seconds mod 60)) /\
  (forall other, 0 <= other -> formatTime other = formatTime seconds ->
                 other = seconds).
Proof.
  assert (Hshape : forall s, 0 <= s ->
            digits (JS.toString (s / 60)) = true /\
            digits (JS.padStart0 2 (JS.toString (Z.rem s 60))) = true /\
            readNat (JS.toString (s / 60)) = Some (s / 60) /\
            readNat (JS.padStart0 2 (JS.toString (Z.rem s 60))) = Some (s mod 60) /\
            String.length (JS.padStart0 2 (JS.toString (Z.rem s 60))) = 2%nat).
  { intros s H0. rewrite Z.rem_mod_nonneg by lia.
    pose proof (Z.mod_pos_bound s 60 ltac:(lia)) as Hr.
    assert (Hm : 0 <= s / 60) by (apply Z.div_pos; lia).
    split; [now apply NumberFacts.digits_toString|].
    split; [apply NumberFacts.digits_padStart0; lia|].
    split; [now apply NumberFacts.readNat_toString|].
    split; [apply NumberFacts.readNat_padStart0; lia|].
    apply NumberFacts.two_places. lia. }
  split.
  - destruct (Hshape seconds Hs) as (H1 & H2 & H3 & H4 & H5).
    exists (JS.toString (seconds / 60)),
           (JS.padStart0 2 (JS.toString (Z.rem seconds 60))).
    repeat split; assumption.
  - intros other Ho Heq. unfold formatTime in Heq. cbv zeta in Heq.
    destruct (Hshape seconds Hs) as (H1 & _ & H3 & H4 & _).
    destruct (Hshape other Ho) as (G1 & _ & G3 & G4 & _).
    destruct (NumberFacts.digits_cut ":" _ _ _ _ eq_refl G1 H1 Heq) as [Em Es].
    rewrite Em, H3 in G3. rewrite Es, H4 in G4.
    inversion G3 as [Hq]. inversion G4 as [Hr].
    rewrite (Z.div_mod other 60), (Z.div_mod seconds 60) by lia. lia.
Qed.

Lemma formatTime_reads_back_witness :
  formatTime 125 = "2:05" /\
  forall other, 0 <= other -> formatTime other = formatTime 125 -> other = 125.
Proof.
  split; [reflexivity|].
  destruct (formatTime_reads_back 125) as [_ H]; [lia | exact H].
Defined.

(* ===================================================================== *)
(** * More on the transcript window *)
(* ===================================================================== *)

(** X8: for a non-negative timestamp and a segment that does not end
    before it starts, the three-way test of the window is interval
    overlap: the segment is selected exactly when it starts no later than
    [t + 10] and ends no earlier than [max(0, t - 10)]. *)
Theorem window_is_overlap (timestamp : Z) (seg : Segment)
  (Ht : 0 <= timestamp)
  (Hwf : seg_start seg <= seg_end seg) :
  inWindow timestamp seg = true <->
  seg_start seg <= timestamp + 10 /\ Z.max 0 (timestamp - 10) <= seg_end seg.
Proof.
  rewrite inWindow_rule. unfold Spec.inWindowRule. cbv zeta. lia.
Qed.

Lemma window_is_overlap_witness :
  inWindow 45 (mkSegment 20 70 "long") = true /\
  (inWindow 45 (mkSegment 20 70 "long") = true <->
   20 <= 45 + 10 /\ Z.max 0 (45 - 10) <= 70).
Proof.
  split; [reflexivity|].
  apply (window_is_overlap 45 (mkSegment 20 70 "long")); cbn; lia.
Defined.

(** X9: a segment of the transcript that is being spoken at a
    non-negative timestamp (it starts no later and ends no earlier) is
    always among the segments returned. *)
Theorem spoken_segment_returned (tr : list Segment) (timestamp : Z) (seg : Segment)
  (Ht : 0 <= timestamp) (Hin : In seg tr)
  (Hspoken : seg_start seg <= timestamp <= seg_end seg) :
  In seg (relevantSegments tr timestamp).
Proof.
  assert (Hsel : In seg (windowSegments tr timestamp)).
  { apply windowSegments_In. split; [exact Hin|].
    unfold Spec.inWindowRule. cbv zeta. lia. }
  rewrite relevantSegments_window; [exact Hsel|].
  intros E. rewrite E in Hsel. destruct Hsel.
Qed.

Lemma spoken_segment_returned_witness :
  In Sample.segB (relevantSegments [Sample.segA; Sample.segB] 50).
Proof.
  apply (spoken_segment_returned [Sample.segA; Sample.segB] 50 Sample.segB).
  - lia.
  - right. now left.
  - cbn. lia.
Defined.

Lemma contentText_from (segs : list Segment) (acc : string) :
  fold_left (fun acc seg => (acc ++ segmentLine seg)%string) segs acc =
  (acc ++ contentText segs)%string.
Proof.
  unfold contentText. revert acc. induction segs as [|s segs IH]; intros acc.
  - cbn. now rewrite NumberFacts.append_nil_r.
  - cbn [fold_left]. rewrite IH, (IH ("" ++ segmentLine s)%string).
    cbn [append]. now rewrite NumberFacts.append_assoc.
Qed.

Lemma contentText_cons (s : Segment) (segs : list Segment) :
  contentText (s :: segs) = (segmentLine s ++ contentText segs)%string.
Proof. unfold contentText at 1. cbn [fold_left]. now rewrite contentText_from. Qed.

Lemma relevantSegments_nil_iff (tr : list Segment) (timestamp : Z) :
  relevantSegments tr timestamp = [] <-> tr = [].
Proof.
  split; [|intros ->; reflexivity].
  intros H. destruct tr as [|x tr]; [reflexivity|]. exfalso.
  unfold relevantSegments in H. cbv zeta in H.
  destruct (windowSegments (x :: tr) timestamp) as [|y l]; [|discriminate H].
  cbn [length Nat.eqb app] in H.
  destruct (closestSeg_firstNearest timestamp (x :: tr)) as (s & Hs & _);
    [discriminate|].
  rewrite Hs in H. discriminate H.
Qed.

Lemma relevantSegments_incl (tr : list Segment) (timestamp : Z) (seg : Segment) :
  In seg (relevantSegments tr timestamp) -> In seg tr.
Proof.
  unfold relevantSegments. cbv zeta.
  destruct (windowSegments tr timestamp) as [|y l] eqn:E.
  - cbn [length Nat.eqb app].
    destruct tr as [|x tr]; [intros []|].
    destruct (closestSeg_firstNearest timestamp (x :: tr)) as (s & Hs & Hfirst);
      [discriminate|].
    rewrite Hs. intros [<- | []].
    destruct Hfirst as (b & a & -> & _). apply in_or_app. right. now left.
  - cbn [length Nat.eqb]. rewrite <- E. intros H.
    apply windowSegments_In in H. tauto.
Qed.

(** X10: the window of a video returns only segments of its transcript;
    it returns none, and its text is the sentinel, exactly when the
    transcript is empty; otherwise the text is the lines of the returned
    segments, the first of which opens with a bracket. *)
Theorem sentinel_iff_empty_transcript (v : Video) (timestamp : Z) :
  let tr := JS.or_else (transcript v) [] in
  (forall seg, In seg (fst (windowAt v timestamp)) -> In seg tr) /\
  (fst (windowAt v timestamp) = [] <-> tr = []) /\
  (snd (windowAt v timestamp) = "Tidak ada konten di timestamp ini" <-> tr = []) /\
  (tr <> [] ->
   exists first others,
     fst (windowAt v timestamp) = first :: others /\
     snd (windowAt v timestamp) =
       (segmentLine first ++ contentText others)%string).
Proof.
  intros tr. unfold windowAt. cbv zeta. cbn [fst snd]. fold tr.
  assert (Hne : tr <> [] ->
            exists first others,
              relevantSegments tr timestamp = first :: others /\
              contentOrSentinel (contentText (relevantSegments tr timestamp)) =
                (segmentLine first ++ contentText others)%string).
  { intros Htr.
    destruct (relevantSegments tr timestamp) as [|first others] eqn:E.
    - apply relevantSegments_nil_iff in E. contradiction.
    - exists first, others. split; [reflexivity|].
      rewrite contentText_cons. reflexivity. }
  split; [apply relevantSegments_incl|].
  split; [apply relevantSegments_nil_iff|].
  split; [|exact Hne].
  split.
  - intros H. destruct tr as [|x tr'] eqn:Etr; [reflexivity|]. exfalso.
    destruct Hne as (first & others & _ & Htext); [discriminate|].
    rewrite Htext in H. discriminate H.
  - intros ->. reflexivity.
Qed.

(* ===================================================================== *)
(** * Occurrences, pieces and the text of a video *)
(* ===================================================================== *)

Module StringFacts.
Import JS.

Lemma prefix_iff (p s : string) :
  String.prefix p s = true <-> exists b, s = (p ++ b)%string.
Proof.
  revert s. induction p as [|c p IH]; intros s.
  - split; [intros _; now exists s | intros _; now destruct s].
  - destruct s as [|d s]; cbn [String.prefix].
    + split; [discriminate | intros [b Hb]; discriminate Hb].
    + destruct (ascii_dec c d) as [-> | Hne].
      * rewrite IH. split; intros [b Hb]; exists b; cbn in *; congruence.
      * split; [discriminate | intros [b Hb]; cbn in Hb; congruence].
Qed.

Lemma includes_iff (s p : string) :
  includes s p = true <-> exists a b, s = (a ++ p ++ b)%string.
Proof.
  induction s as [|c s IH]; cbn [includes]; rewrite orb_true_iff.
  - split.
    + intros [H | H]; [|discriminate]. apply prefix_iff in H. destruct H as [b Hb].
      now exists "", b.
    + intros (a & b & H). left. apply prefix_iff.
      destruct a; [now exists b | discriminate H].
  - rewrite IH, prefix_iff. split.
    + intros [[b Hb] | (a & b & Hab)].
      * now exists "", b.
      * exists (String c a), b. cbn. now rewrite Hab.
    + intros (a & b & H). destruct a as [|x a].
      * left. now exists b.
      * right. exists a, b. cbn in H. congruence.
Qed.

Lemma includes_app_l (s b p : string) :
  includes s p = true -> includes (s ++ b) p = true.
Proof.
  rewrite !includes_iff. intros (x & y & ->). exists x, (y ++ b)%string.
  now rewrite !NumberFacts.append_assoc.
Qed.

Lemma includes_trans (s t w : string) :
  includes s t = true -> includes t w = true -> includes s w = true.
Proof.
  rewrite !includes_iff. intros (a & b & ->) (x & y & ->).
  exists (a ++ x)%string, (y ++ b)%string.
  now rewrite !NumberFacts.append_assoc.
Qed.

Lemma prefix_includes (t w : string) :
  String.prefix w t = true -> includes t w = true.
Proof.
  rewrite prefix_iff, includes_iff. intros [b ->]. now exists "", b.
Qed.

Lemma split_ws_cons (c : ascii) (s : string) :
  split_ws (String c s) =
  if is_space c
  then if starts_with_space s then split_ws s else "" :: split_ws s
  else push_char c (split_ws s).
Proof. reflexivity. Qed.

(** After a whitespace character the first piece is empty. *)
Lemma split_ws_space_head (c : ascii) (s : string) :
  is_space c = true -> exists rest, split_ws (String c s) = "" :: rest.
Proof.
  revert c. induction s as [|d s IH]; intros c Hc; rewrite split_ws_cons, Hc.
  - cbn. now eexists.
  - cbn [starts_with_space]. destruct (is_space d) eqn:Hd.
    + now apply IH.
    + now eexists.
Qed.

(** The first piece is a prefix of the string. *)
Lemma split_ws_head_prefix (s w : string) (rest : list string) :
  split_ws s = w :: rest -> exists b, s = (w ++ b)%string.
Proof.
  revert w rest. induction s as [|c s IH]; intros w rest H.
  - cbn in H. inversion H. now exists "".
  - destruct (is_space c) eqn:Hc.
    + destruct (split_ws_space_head c s Hc) as [r Hr]. rewrite Hr in H.
      inversion H. now exists (String c s).
    + rewrite split_ws_cons, Hc in H.
      destruct (split_ws s) as [|w' rest'] eqn:E; [now apply JSFacts.split_ws_nonempty in E|].
      cbn in H. inversion H; subst.
      destruct (IH w' rest eq_refl) as [b Hb]. exists b. cbn. now rewrite <- Hb.
Qed.

(** Every piece occurs in the string. *)
Lemma split_ws_piece (s t : string) :
  In t (split_ws s) -> includes s t = true.
Proof.
  revert t. induction s as [|c s IH]; intros t H.
  - cbn in H. destruct H as [<- | []]. reflexivity.
  - assert (Htail : In t (split_ws s) -> includes (String c s) t = true).
    { intros Ht. cbn [includes]. rewrite (IH t Ht). apply orb_true_r. }
    rewrite split_ws_cons in H. destruct (is_space c) eqn:Hc.
    + destruct (starts_with_space s); [now apply Htail|].
      destruct H as [<- | H]; [apply JSFacts.includes_nil | now apply Htail].
    + destruct (split_ws s) as [|w rest] eqn:E; [now apply JSFacts.split_ws_nonempty in E|].
      cbn in H. destruct H as [<- | H].
      * apply prefix_includes, prefix_iff.
        destruct (split_ws_head_prefix s w rest E) as [b Hb].
        exists b. cbn. now rewrite <- Hb.
      * apply Htail. now right.
Qed.

(** No piece holds a whitespace character. *)
Lemma split_ws_spaceFree (s t : string) :
  In t (split_ws s) -> spaceFree t = true.
Proof.
  revert t. induction s as [|c s IH]; intros t H.
  - cbn in H. destruct H as [<- | []]. reflexivity.
  - rewrite split_ws_cons in H. destruct (is_space c) eqn:Hc.
    + destruct (starts_with_space s); [now apply IH|].
      destruct H as [<- | H]; [reflexivity | now apply IH].
    + destruct (split_ws s) as [|w rest] eqn:E; [now apply JSFacts.split_ws_nonempty in E|].
      cbn in H. destruct H as [<- | H].
      * cbn. rewrite Hc. cbn. apply IH. now left.
      * apply IH. now right.
Qed.

Lemma prefix_before_space (w a b : string) (sp : ascii) :
  is_space sp = true -> spaceFree w = true ->
  String.prefix w (a ++ String sp b) = true -> String.prefix w a = true.
Proof.
  intros Hsp. revert a. induction w as [|c w IH]; intros a Hw H;
    [apply JSFacts.prefix_nil|].
  cbn in Hw. apply andb_true_iff in Hw. destruct Hw as [Hc Hw].
  destruct a as [|x a]; cbn in H |- *.
  - destruct (ascii_dec c sp) as [-> | _]; [|discriminate].
    rewrite Hsp in Hc. discriminate Hc.
  - destruct (ascii_dec c x); [now apply IH | discriminate].
Qed.

(** A non-empty word without whitespace that occurs in two texts joined by
    a whitespace character occurs in one of them. *)
Lemma includes_across_space (w a b : string) (sp : ascii) :
  is_space sp = true -> spaceFree w = true -> w <> "" ->
  includes (a ++ String sp b) w = true ->
  includes a w = true \/ includes b w = true.
Proof.
  intros Hsp Hw Hne. induction a as [|x a IH]; cbn [append includes]; intros H.
  - apply orb_true_iff in H. destruct H as [H | H]; [|now right].
    exfalso. destruct w as [|c w]; [congruence|]. cbn in H, Hw.
    destruct (ascii_dec c sp) as [-> | _]; [|discriminate].
    rewrite Hsp in Hw. discriminate Hw.
  - apply orb_true_iff in H. destruct H as [H | H].
    + left. apply orb_true_iff. left.
      exact (prefix_before_space w (String x a) b sp Hsp Hw H).
    + destruct (IH H) as [Ha | Hb]; [left | now right].
      apply orb_true_iff. now right.
Qed.

End StringFacts.

(* ===================================================================== *)
(** * A video is returned exactly when the query occurs in its text *)
(* ===================================================================== *)

Lemma videoScore_closed (query : string) (v : Video) :
  videoScore query v = Spec.searchScore query v.
Proof.
  unfold videoScore, scoreVideo, Spec.searchScore, Spec.tokens, queryWords, Spec.points.
  cbn [score]. rewrite fold_scoreWord, <- allText_spec.
  destruct (JS.includes (allText v) (JS.toLowerCase query)); lia.
Qed.

Lemma total_nonneg (l : list Z) : (forall x, In x l -> 0 <= x) -> 0 <= Spec.total l.
Proof.
  induction l as [|x l IH]; intros H; cbn; [lia|].
  pose proof (H x (or_introl eq_refl)).
  assert (0 <= Spec.total l) by (apply IH; intros y Hy; apply H; now right). lia.
Qed.

Lemma total_pos_iff (l : list Z) :
  (forall x, In x l -> 0 <= x) ->
  (0 < Spec.total l <-> exists x, In x l /\ 0 < x).
Proof.
  induction l as [|x l IH]; intros H; cbn [Spec.total].
  - split; [lia | intros (x & [] & _)].
  - pose proof (H x (or_introl eq_refl)) as Hx.
    assert (Hl : forall y, In y l -> 0 <= y) by (intros y Hy; apply H; now right).
    pose proof (total_nonneg l Hl) as Ht. specialize (IH Hl). split.
    + intros Hpos. destruct (Z.ltb_spec 0 x) as [Hp | Hn].
      * exists x. split; [now left | exact Hp].
      * destruct (proj1 IH ltac:(lia)) as (y & Hy & Hyp).
        exists y. split; [now right | exact Hyp].
    + intros (y & [<- | Hy] & Hyp); [lia|].
      assert (0 < Spec.total l) by (apply IH; now exists y). lia.
Qed.

(** A query word scores on a video exactly when it occurs in the text of
    the video. *)
Lemma wordScore_pos_iff (v : Video) (w : string) :
  spaceFree w = true -> w <> "" ->
  (0 < Spec.wordScore v w <-> JS.includes (allText v) w = true).
Proof.
  intros Hw Hne. rewrite allText_spec. unfold Spec.wordScore, Spec.allText.
  set (tp := Spec.topicsText v). set (kw := Spec.keywordsText v).
  set (ti := Spec.titleText v).
  assert (Hext : Spec.properExtensions v w <> [] ->
                 JS.includes (tp ++ " " ++ kw ++ " " ++ ti) w = true).
  { unfold Spec.properExtensions, Spec.allText. fold tp kw ti.
    destruct (filter _ _) as [|t rest] eqn:E; [congruence | intros _].
    assert (Ht : In t (t :: rest)) by now left.
    rewrite <- E in Ht. apply filter_In in Ht. destruct Ht as [Hin Hp].
    apply andb_true_iff in Hp. destruct Hp as [Hp _].
    apply (StringFacts.includes_trans _ t).
    - now apply StringFacts.split_ws_piece.
    - now apply StringFacts.prefix_includes. }
  split.
  - intros Hpos.
    destruct (JS.includes tp w) eqn:E1; [now apply StringFacts.includes_app_l|].
    destruct (JS.includes kw w) eqn:E2.
    { apply JSFacts.includes_app_r. apply (JSFacts.includes_app_r " ").
      now apply StringFacts.includes_app_l. }
    destruct (JS.includes ti w) eqn:E3.
    { apply JSFacts.includes_app_r. apply (JSFacts.includes_app_r " ").
      apply JSFacts.includes_app_r. now apply (JSFacts.includes_app_r " "). }
    apply Hext. unfold Spec.points in Hpos.
    destruct (Spec.properExtensions v w); [cbn in Hpos; lia | discriminate].
  - intros H.
    destruct (StringFacts.includes_across_space w tp (kw ++ " " ++ ti) " "
                eq_refl Hw Hne H) as [H1 | H23].
    + rewrite H1. unfold Spec.points.
      destruct (JS.includes kw w), (JS.includes ti w); lia.
    + destruct (StringFacts.includes_across_space w kw ti " " eq_refl Hw Hne H23)
        as [H2 | H3].
      * rewrite H2. unfold Spec.points.
        destruct (JS.includes tp w), (JS.includes ti w); lia.
      * rewrite H3. unfold Spec.points.
        destruct (JS.includes tp w), (JS.includes kw w); lia.
Qed.

Lemma queryWords_wellformed (queryLower w : string) :
  In w (queryWords queryLower) -> spaceFree w = true /\ w <> "".
Proof.
  unfold queryWords. intros H. apply filter_In in H. destruct H as [Hin Hlen].
  split; [now apply (StringFacts.split_ws_spaceFree queryLower)|].
  intros ->. discriminate Hlen.
Qed.

Lemma videoScore_pos_iff (query : string) (v : Video) :
  0 <= videoScore query v /\ (0 < videoScore query v <-> occursIn query v).
Proof.
  rewrite videoScore_closed. unfold Spec.searchScore, Spec.tokens, occursIn.
  fold (queryWords (JS.toLowerCase query)). rewrite <- allText_spec.
  set (ws := queryWords (JS.toLowerCase query)).
  assert (Hnn : forall x, In x (map (Spec.wordScore v) ws) -> 0 <= x).
  { intros x Hx. apply in_map_iff in Hx. destruct Hx as (w & <- & _).
    apply wordScore_nonneg. }
  pose proof (total_nonneg _ Hnn) as Ht.
  pose proof (total_pos_iff _ Hnn) as Hiff.
  assert (Hwords : 0 < Spec.total (map (Spec.wordScore v) ws) <->
                   exists w, In w ws /\ JS.includes (allText v) w = true).
  { rewrite Hiff. split.
    - intros (x & Hx & Hpos). apply in_map_iff in Hx. destruct Hx as (w & <- & Hw).
      exists w. split; [exact Hw|].
      destruct (queryWords_wellformed _ _ Hw) as [Hsf Hne].
      now apply wordScore_pos_iff.
    - intros (w & Hw & Hinc). exists (Spec.wordScore v w). split; [now apply in_map|].
      destruct (queryWords_wellformed _ _ Hw) as [Hsf Hne].
      now apply wordScore_pos_iff. }
  unfold Spec.points.
  destruct (JS.includes (allText v) (JS.toLowerCase query)) eqn:E.
  - split; [lia|]. split; [intros _; now left | intros _; lia].
  - split; [lia|]. rewrite Z.add_0_l, Hwords. split.
    + intros H. now right.
    + intros [H | H]; [discriminate | exact H].
Qed.

(** X11: a score is never negative, and it is positive exactly when the
    lowercased query, or one of its words of more than one character,
    occurs in the text of the video (topics, keywords and title); so for a
    non-empty query the search returns a catalog video exactly in that
    case. *)
Theorem returned_iff_occurs (VIDEOS_DATA : list Video) (query : string) (v : Video) :
  0 <= videoScore query v /\
  (0 < videoScore query v <->
     JS.includes (allText v) (JS.toLowerCase query) = true \/
     exists w, In w (queryWords (JS.toLowerCase query)) /\
               JS.includes (allText v) w = true) /\
  (query <> "" -> In v VIDEOS_DATA ->
     (In (mkScored v (videoScore query v)) (searchByTopics VIDEOS_DATA query) <->
      JS.includes (allText v) (JS.toLowerCase query) = true \/
      exists w, In w (queryWords (JS.toLowerCase query)) /\
                JS.includes (allText v) w = true)).
Proof.
  destruct (videoScore_pos_iff query v) as [Hnn Hiff]. unfold occursIn in Hiff.
  split; [exact Hnn|]. split; [exact Hiff|].
  intros Hq Hv. rewrite <- Hiff. rewrite (searchByTopics_In _ _ _ Hq). cbn [score].
  split; [tauto|]. intros Hpos. split; [|exact Hpos].
  apply scored_In. now exists v.
Qed.

(* ===================================================================== *)
(** * The system prompt inside the page script *)
(* ===================================================================== *)

Module EscapeFacts.

Lemma replace1_app (old : ascii) (new a b : string) :
  Py.replace1 old new (a ++ b) = (Py.replace1 old new a ++ Py.replace1 old new b)%string.
Proof.
  induction a as [|c a IH]; [reflexivity|]. cbn [append Py.replace1].
  destruct (Ascii.eqb c old); rewrite IH; cbn [append];
    [now rewrite NumberFacts.append_assoc | reflexivity].
Qed.

Lemma replace1_cons (old : ascii) (new : string) (c : ascii) (s : string) :
  Py.replace1 old new (String c s) =
  (Py.replace1 old new (String c "") ++ Py.replace1 old new s)%string.
Proof. exact (replace1_app old new (String c "") s). Qed.

(** The four replacements on one character. *)
Lemma escaped_char (c : ascii) :
  system_prompt_escaped (String c "") = escapeChar c.
Proof. JSFacts.each_char c; reflexivity. Qed.

(** The later replacements never touch what the earlier ones wrote: the
    chain of four is one pass over the characters. *)
Lemma escaped_one_pass (s : string) : system_prompt_escaped s = escapeAll s.
Proof.
  induction s as [|c s IH]; [reflexivity|].
  cbn [escapeAll]. rewrite <- IH, <- escaped_char.
  unfold system_prompt_escaped.
  rewrite (replace1_cons backslash _ c s), !replace1_app. reflexivity.
Qed.

Lemma literalValue_escapeChar (c : ascii) (t : string) :
  literalValue (escapeChar c ++ t) = option_map (String c) (literalValue t).
Proof.
  JSFacts.each_char c; cbn; destruct (literalValue t); reflexivity.
Qed.

Lemma literalValue_escapeAll (s : string) : literalValue (escapeAll s) = Some s.
Proof.
  induction s as [|c s IH]; [reflexivity|].
  cbn [escapeAll]. now rewrite literalValue_escapeChar, IH.
Qed.

Lemma occurs_app (c : ascii) (a b : string) :
  occurs c (a ++ b) = occurs c a || occurs c b.
Proof.
  induction a as [|x a IH]; [reflexivity|]. cbn. now rewrite IH, orb_assoc.
Qed.

Lemma occurs_escapeChar (c : ascii) :
  occurs lineFeed (escapeChar c) = false /\
  occurs carriageReturn (escapeChar c) = false.
Proof. JSFacts.each_char c; split; reflexivity. Qed.

Lemma occurs_escapeAll (s : string) :
  occurs lineFeed (escapeAll s) = false /\
  occurs carriageReturn (escapeAll s) = false.
Proof.
  induction s as [|c s [IH1 IH2]]; [split; reflexivity|].
  cbn [escapeAll]. rewrite !occurs_app, IH1, IH2.
  destruct (occurs_escapeChar c) as [-> ->]. split; reflexivity.
Qed.

End EscapeFacts.

(** X12: the escaping of the system prompt is one pass that writes each
    backslash, quote, line feed and carriage return as a two-character
    escape and copies every other character; its output holds no raw line
    feed or carriage return, and read as the body of a single-quoted
    literal it is the prompt again, so no two prompts escape alike. *)
Theorem system_prompt_survives_escaping (system_prompt : string) :
  system_prompt_escaped system_prompt = escapeAll system_prompt /\
  occurs lineFeed (system_prompt_escaped system_prompt) = false /\
  occurs carriageReturn (system_prompt_escaped system_prompt) = false /\
  literalValue (system_prompt_escaped system_prompt) = Some system_prompt /\
  (forall other, system_prompt_escaped other = system_prompt_escaped system_prompt ->
                 other = system_prompt).
Proof.
  pose proof (EscapeFacts.escaped_one_pass system_prompt) as H1.
  pose proof (EscapeFacts.literalValue_escapeAll system_prompt) as H2.
  destruct (EscapeFacts.occurs_escapeAll system_prompt) as [H3 H4].
  rewrite H1. repeat split; try assumption.
  intros other Heq. rewrite EscapeFacts.escaped_one_pass in Heq.
  pose proof (EscapeFacts.literalValue_escapeAll other) as Ho.
  rewrite Heq, H2 in Ho. now inversion Ho.
Qed.

(* ===================================================================== *)
(** * Video ids and the elapsed-time display *)
(* ===================================================================== *)

Module FormatFacts.

Lemma format_0d_nonneg (w : nat) (n : Z) :
  0 <= n -> Py.format_0d w n = JS.padStart0 w (JS.toString n).
Proof.
  intros Hn. unfold Py.format_0d, Py.str.
  destruct (Z.ltb_spec n 0); [lia | reflexivity].
Qed.

Lemma format_0d_neg (w : nat) (n : Z) :
  n < 0 ->
  Py.format_0d w n = String "-" (JS.padStart0 (w - 1) (JS.toString (- n))).
Proof.
  intros Hn. unfold Py.format_0d, Py.str.
  destruct (Z.ltb_spec n 0); [reflexivity | lia].
Qed.

(** A padded integer determines the integer, whatever its sign. *)
Lemma format_0d_inj (w : nat) (i j : Z) :
  Py.format_0d w i = Py.format_0d w j -> i = j.
Proof.
  intros H.
  destruct (Z.ltb_spec i 0) as [Hi | Hi], (Z.ltb_spec j 0) as [Hj | Hj].
  - rewrite !format_0d_neg in H by assumption. inversion H as [Hs].
    pose proof (NumberFacts.readNat_padStart0 (w - 1) (- i) ltac:(lia)) as Ri.
    pose proof (NumberFacts.readNat_padStart0 (w - 1) (- j) ltac:(lia)) as Rj.
    rewrite Hs, Rj in Ri. inversion Ri. lia.
  - rewrite format_0d_neg, format_0d_nonneg in H by assumption.
    pose proof (NumberFacts.digits_padStart0 w j Hj) as D.
    rewrite <- H in D. discriminate D.
  - rewrite format_0d_nonneg, format_0d_neg in H by assumption.
    pose proof (NumberFacts.digits_padStart0 w i Hi) as D.
    rewrite H in D. discriminate D.
  - rewrite !format_0d_nonneg in H by assumption.
    pose proof (NumberFacts.readNat_padStart0 w i Hi) as Ri.
    pose proof (NumberFacts.readNat_padStart0 w j Hj) as Rj.
    rewrite H, Rj in Ri. now inversion Ri.
Qed.

Lemma video_id_inj (i j : Z) : video_id i = video_id j -> i = j.
Proof.
  unfold video_id. intros H. cbn in H. inversion H as [H']. 
  now apply (format_0d_inj 3).
Qed.

Lemma processed_ids_from_In (i : Z) (processed : list bool) (x : string) :
  In x (processed_ids_from i processed) ->
  exists k, i <= k < i + Z.of_nat (length processed) /\ x = video_id k.
Proof.
  revert i. induction processed as [|ok rest IH]; intros i H; [destruct H|].
  cbn [processed_ids_from] in H. apply in_app_or in H.
  rewrite length_cons, Nat2Z.inj_succ. destruct H as [H | H].
  - destruct ok; [|destruct H]. destruct H as [<- | []]. exists i. split; [lia | reflexivity].
  - destruct (IH (i + 1) H) as (k & Hk & ->). exists k. split; [lia | reflexivity].
Qed.

Lemma processed_ids_from_NoDup (i : Z) (processed : list bool) :
  NoDup (processed_ids_from i processed).
Proof.
  revert i. induction processed as [|ok rest IH]; intros i; [constructor|].
  cbn [processed_ids_from]. destruct ok; cbn [app]; [|apply IH].
  constructor; [|apply IH]. intros Hin.
  destruct (processed_ids_from_In _ _ _ Hin) as (k & Hk & E).
  apply video_id_inj in E. lia.
Qed.

Lemma processed_ids_from_length (i : Z) (processed : list bool) :
  length (processed_ids_from i processed) = length (filter (fun ok => ok) processed).
Proof.
  revert i. induction processed as [|ok rest IH]; intros i; [reflexivity|].
  cbn [processed_ids_from filter]. rewrite length_app, IH.
  destruct ok; reflexivity.
Qed.

End FormatFacts.

(** X13: [f"video_{i:03d}"] gives different ids to different indices,
    and the ids [main] hands out, numbering the listed videos from 1 and
    leaving out those that fail, are pairwise distinct, one per processed
    video. *)
Theorem video_ids_unique (processed : list bool) :
  (forall i j, video_id i = video_id j -> i = j) /\
  NoDup (processed_ids processed) /\
  length (processed_ids processed) = length (filter (fun ok => ok) processed) /\
  (forall x, In x (processed_ids processed) ->
     exists k, 1 <= k <= Z.of_nat (length processed) /\ x = video_id k).
Proof.
  split; [exact FormatFacts.video_id_inj|].
  split; [apply FormatFacts.processed_ids_from_NoDup|].
  split; [apply FormatFacts.processed_ids_from_length|].
  intros x H. unfold processed_ids in H.
  destruct (FormatFacts.processed_ids_from_In 1 processed x H) as (k & Hk & ->).
  exists k. split; [lia | reflexivity].
Qed.

(** X14: [format_eta] prints the elapsed time, cut off below at zero, as
    hours, minutes and seconds in decimal, the last two always with two
    digits and below 60; the three fields read back to a time of
    [3600 h + 60 m + s] seconds equal to the one printed, so two
    displays agree only for equal times, and a negative input prints as
    ["00:00:00"]. *)
Theorem format_eta_reads_back (int_seconds : Z) :
  (exists hh mm ss h m s,
     format_eta int_seconds = (hh ++ ":" ++ mm ++ ":" ++ ss)%string /\
     digits hh = true /\ digits mm = true /\ digits ss = true /\
     String.length mm = 2%nat /\ String.length ss = 2%nat /\
     readNat hh = Some h /\ readNat mm = Some m /\ readNat ss = Some s /\
     0 <= h /\ 0 <= m < 60 /\ 0 <= s < 60 /\
     3600 * h + 60 * m + s = Z.max 0 int_seconds) /\
  (forall other, format_eta other = format_eta int_seconds ->
                 Z.max 0 other = Z.max 0 int_seconds) /\
  (int_seconds <= 0 -> format_eta int_seconds = "00:00:00").
Proof.
  assert (Hshape : forall n,
            let t := Z.max 0 n in
            let h := t / 3600 in
            let m := (t mod 3600) / 60 in
            let s := t mod 60 in
            format_eta n =
              (JS.padStart0 2 (JS.toString h) ++ ":" ++
               JS.padStart0 2 (JS.toString m) ++ ":" ++
               JS.padStart0 2 (JS.toString s))%string /\
            0 <= h /\ 0 <= m < 60 /\ 0 <= s < 60 /\ 3600 * h + 60 * m + s = t).
  { intros n t h m s. subst h m s.
    assert (Ht : 0 <= t) by (subst t; lia).
    assert (Hall : 0 <= t / 3600 /\ 0 <= t mod 3600 / 60 < 60 /\ 0 <= t mod 60 < 60 /\
                   3600 * (t / 3600) + 60 * (t mod 3600 / 60) + t mod 60 = t)
      by (Z.div_mod_to_equations; lia).
    destruct Hall as (H1 & H2 & H3 & H4).
    split; [|repeat split; lia].
    unfold format_eta. cbv zeta. fold t.
    rewrite !FormatFacts.format_0d_nonneg by lia. reflexivity. }
  split; [|split].
  - destruct (Hshape int_seconds) as (E & Hh & Hm & Hs & Hsum).
    do 6 eexists. split; [exact E|].
    split; [apply NumberFacts.digits_padStart0; lia|].
    split; [apply NumberFacts.digits_padStart0; lia|].
    split; [apply NumberFacts.digits_padStart0; lia|].
    split; [apply NumberFacts.two_places; lia|].
    split; [apply NumberFacts.two_places; lia|].
    split; [apply NumberFacts.readNat_padStart0; lia|].
    split; [apply NumberFacts.readNat_padStart0; lia|].
    split; [apply NumberFacts.readNat_padStart0; lia|].
    repeat split; lia.
  - intros other Heq.
    destruct (Hshape int_seconds) as (E & Hh & Hm & Hs & Hsum).
    destruct (Hshape other) as (E' & Hh' & Hm' & Hs' & Hsum').
    rewrite E, E' in Heq.
    destruct (NumberFacts.digits_cut ":" _ _ _ _ eq_refl
                (NumberFacts.digits_padStart0 2 _ Hh')
                (NumberFacts.digits_padStart0 2 _ Hh) Heq) as [Eh Erest].
    destruct (NumberFacts.digits_cut ":" _ _ _ _ eq_refl
                (NumberFacts.digits_padStart0 2 _ (proj1 Hm'))
                (NumberFacts.digits_padStart0 2 _ (proj1 Hm)) Erest) as [Em Es].
    pose proof (NumberFacts.readNat_padStart0 2 _ Hh) as R1.
    pose proof (NumberFacts.readNat_padStart0 2 _ Hh') as R1'.
    pose proof (NumberFacts.readNat_padStart0 2 _ (proj1 Hm)) as R2.
    pose proof (NumberFacts.readNat_padStart0 2 _ (proj1 Hm')) as R2'.
    pose proof (NumberFacts.readNat_padStart0 2 _ (proj1 Hs)) as R3.
    pose proof (NumberFacts.readNat_padStart0 2 _ (proj1 Hs')) as R3'.
    rewrite Eh, R1 in R1'. rewrite Em, R2 in R2'. rewrite Es, R3 in R3'.
    inversion R1' as [Q1]. inversion R2' as [Q2]. inversion R3' as [Q3].
    rewrite <- Hsum, <- Hsum', <- Q1, <- Q2, <- Q3. reflexivity.
  - intros Hneg. unfold format_eta. cbv zeta.
    replace (Z.max 0 int_seconds) with 0 by lia. reflexivity.
Qed.

(* ===================================================================== *)
(** * The videos chosen for processing *)
(* ===================================================================== *)

Module ListFacts.

Lemma sort_ext {A : Type} (cmp cmp' : A -> A -> Z) (l : list A) :
  (forall a b, cmp a b = cmp' a b) -> JS.sort cmp l = JS.sort cmp' l.
Proof.
  intros H.
  pose proof (sort_map cmp cmp' (fun x => x) l (fun a b => eq_sym (H a b))) as E.
  rewrite !map_id in E. exact E.
Qed.

Lemma sort_by_key_sorted {A : Type} (key : A -> Z) (l : list A) :
  StronglySorted (fun a b => key a <= key b) (Py.sort_by_key key l).
Proof.
  unfold Py.sort_by_key.
  rewrite (sort_ext _ (fun a b => - key b - - key a)) by (intros; lia).
  pose proof (sort_sorted (fun a => - key a) l) as H.
  induction H as [|x s Hs IH Hx]; constructor; [exact IH|].
  rewrite Forall_forall in Hx |- *. intros y Hy. specialize (Hx y Hy). cbn in Hx. lia.
Qed.

Lemma sort_by_key_Permutation {A : Type} (key : A -> Z) (l : list A) :
  Permutation (Py.sort_by_key key l) l.
Proof. apply sort_Permutation. Qed.

Lemma sorted_app {A : Type} (R : A -> A -> Prop) (l1 l2 : list A) :
  StronglySorted R (l1 ++ l2) ->
  StronglySorted R l1 /\ (forall x y, In x l1 -> In y l2 -> R x y).
Proof.
  induction l1 as [|a l1 IH]; intros H.
  - split; [constructor | intros x y []].
  - cbn in H. apply StronglySorted_inv in H. destruct H as [Hs Ha].
    destruct (IH Hs) as [H1 H2]. rewrite Forall_forall in Ha. split.
    + constructor; [exact H1|]. rewrite Forall_forall. intros y Hy.
      apply Ha, in_or_app. now left.
    + intros x y [<- | Hx] Hy; [apply Ha, in_or_app; now right | now apply H2].
Qed.

End ListFacts.

(** X15: [list_videos] returns only listed objects whose name ends in
    [.mp4] in any letter case, ordered by ascending size; with a positive
    [max_videos] it returns at most that many, and they are the smallest:
    every [.mp4] object it leaves out is at least as large as every one it
    returns.  Without a limit nothing is left out. *)
Theorem list_videos_smallest_first (objects : list ObjectInfo) (max_videos : Z) :
  let isVideo := fun obj => Py.endswith (JS.toLowerCase (object_name obj)) ".mp4" in
  let chosen := list_videos objects max_videos in
  (forall obj, In obj chosen -> In obj objects /\ isVideo obj = true) /\
  StronglySorted (fun a b => size a <= size b) chosen /\
  (0 < max_videos -> (length chosen <= Z.to_nat max_videos)%nat) /\
  exists left_out,
    Permutation (chosen ++ left_out) (filter isVideo objects) /\
    (max_videos <= 0 -> left_out = []) /\
    (forall x y, In x chosen -> In y left_out -> size x <= size y).
Proof.
  intros isVideo chosen. subst chosen. unfold list_videos. cbv zeta.
  fold isVideo. set (videos := filter isVideo objects).
  set (sorted := Py.sort_by_key size videos).
  pose proof (ListFacts.sort_by_key_sorted size videos) as Hsorted. fold sorted in Hsorted.
  pose proof (ListFacts.sort_by_key_Permutation size videos) as Hperm. fold sorted in Hperm.
  assert (Hmem : forall obj, In obj sorted -> In obj objects /\ isVideo obj = true).
  { intros obj H. apply (Permutation_in _ Hperm) in H. now apply filter_In in H. }
  destruct (Z.ltb_spec 0 max_videos) as [Hpos | Hnon].
  - set (k := Z.to_nat max_videos).
    pose proof (firstn_skipn k sorted) as Hsplit.
    rewrite <- Hsplit in Hsorted.
    destruct (ListFacts.sorted_app _ _ _ Hsorted) as [Hs1 Hcross].
    split; [|split; [exact Hs1|split]].
    + intros obj H. apply Hmem. rewrite <- Hsplit. apply in_or_app. now left.
    + intros _. apply firstn_le_length.
    + exists (skipn k sorted). split; [now rewrite Hsplit|]. split; [lia | exact Hcross].
  - split; [exact Hmem|]. split; [exact Hsorted|]. split; [lia|].
    exists []. rewrite app_nil_r. split; [exact Hperm|]. split; [reflexivity|].
    intros x y _ [].
Qed.

(* ===================================================================== *)
(** * The transcript sent for metadata extraction *)
(* ===================================================================== *)

Module TakeFacts.

Lemma take_length (n : nat) (s : string) :
  String.length (Py.take n s) = Nat.min n (String.length s).
Proof.
  revert s. induction n as [|n IH]; intros [|c s]; cbn; try reflexivity.
  now rewrite IH.
Qed.

Lemma take_all (n : nat) (s : string) :
  (String.length s <= n)%nat -> Py.take n s = s.
Proof.
  revert s. induction n as [|n IH]; intros [|c s] H; cbn in *; try reflexivity.
  - lia.
  - rewrite IH by lia. reflexivity.
Qed.

Lemma take_split (n : nat) (s : string) :
  exists rest, s = (Py.take n s ++ rest)%string /\
               String.length rest = (String.length s - n)%nat.
Proof.
  revert s. induction n as [|n IH]; intros s.
  - exists s. destruct s; cbn; split; try reflexivity; lia.
  - destruct s as [|c s]; [exists ""; now split|].
    destruct (IH s) as (rest & Hs & Hl). exists rest. cbn. split; [now rewrite <- Hs | exact Hl].
Qed.

End TakeFacts.

(** X16: the transcript sent with the metadata request is the transcript
    itself when it has at most 4000 characters; a longer one is cut to its
    first 4000 characters followed by three dots, so the text sent never
    exceeds 4003 characters. *)
Theorem truncated_transcript_bounded (transcript_text : string) :
  (String.length (truncated_transcript transcript_text) <= max_transcript_len + 3)%nat /\
  ((String.length transcript_text <= max_transcript_len)%nat ->
     truncated_transcript transcript_text = transcript_text) /\
  ((max_transcript_len < String.length transcript_text)%nat ->
     exists cut,
       transcript_text = (Py.take max_transcript_len transcript_text ++ cut)%string /\
       cut <> "" /\
       truncated_transcript transcript_text =
         (Py.take max_transcript_len transcript_text ++ "...")%string /\
       String.length (truncated_transcript transcript_text) =
         (max_transcript_len + 3)%nat).
Proof.
  unfold truncated_transcript. cbv zeta.
  generalize max_transcript_len as n. intros n.
  pose proof (TakeFacts.take_length n transcript_text) as Hlen.
  destruct (Nat.ltb_spec n (String.length transcript_text)) as [Hlong | Hshort].
  - assert (Hl : String.length (Py.take n transcript_text ++ "...") = (n + 3)%nat).
    { rewrite NumberFacts.append_length, Hlen. cbn [String.length]. lia. }
    split; [lia|]. split; [lia|]. intros _.
    destruct (TakeFacts.take_split n transcript_text) as (cut & Hs & Hc).
    exists cut. split; [exact Hs|]. split; [|split; [reflexivity | exact Hl]].
    intros ->. cbn in Hc. lia.
  - split; [lia|]. split; [intros _; now apply TakeFacts.take_all | lia].
Qed.

(* ===================================================================== *)
(** * The letter case of the catalog *)
(* ===================================================================== *)

(** X17: the score of a video depends on its title, topics and keywords
    only up to letter case, an absent field counting as empty: two
    entries that agree on these once lowercased get the same score for
    every query. *)
Theorem score_ignores_catalog_case (query : string) (v v' : Video)
  (Htopics : map JS.toLowerCase (JS.or_else (topics v) []) =
             map JS.toLowerCase (JS.or_else (topics v') []))
  (Hkeywords : map JS.toLowerCase (JS.or_else (keywords v) []) =
               map JS.toLowerCase (JS.or_else (keywords v') []))
  (Htitle : JS.toLowerCase (JS.or_else (title v) "") =
            JS.toLowerCase (JS.or_else (title v') "")) :
  videoScore query v = videoScore query v'.
Proof.
  rewrite !videoScore_closed.
  unfold Spec.searchScore, Spec.wordScore, Spec.properExtensions, Spec.allText,
    Spec.topicsText, Spec.keywordsText, Spec.titleText.
  rewrite Htopics, Hkeywords, Htitle. reflexivity.
Qed.

Lemma score_ignores_catalog_case_witness :
  videoScore "Gaya Gerak" Sample.newtonUpper = 40 /\
  videoScore "Gaya Gerak" Sample.newton = videoScore "Gaya Gerak" Sample.newtonUpper.
Proof.
  split; [reflexivity|].
  apply (score_ignores_catalog_case "Gaya Gerak" Sample.newton Sample.newtonUpper);
    reflexivity.
Defined.

(* ===================================================================== *)
(** * No video is returned twice *)
(* ===================================================================== *)

(** Entries with distinct keys keep distinct keys when some are dropped. *)
Lemma distinct_keys_kept {K V : Type} (key : V -> K) (keep : V -> bool)
  (entries : list V) (Hkeys : NoDup (map key entries)) :
  NoDup (map key (filter keep entries)).
Proof.
  induction entries as [|e entries IH]; [constructor|].
  cbn [map] in Hkeys. apply NoDup_cons_iff in Hkeys. destruct Hkeys as [Hnew Hrest].
  cbn [filter]. destruct (keep e); [|now apply IH].
  cbn [map]. constructor; [|now apply IH].
  intros Hin. apply Hnew. apply in_map_iff in Hin. destruct Hin as (x & Hx & Hf).
  apply filter_In in Hf. apply in_map_iff. exists x. tauto.
Qed.

(** X18: when the ids of the catalog are pairwise distinct, so are the
    ids of the videos a search returns, and a search never returns more
    entries than the catalog has. *)
Theorem search_returns_each_video_once (VIDEOS_DATA : list Video) (query : string)
  (Hids : NoDup (map id VIDEOS_DATA)) :
  NoDup (map (fun r => id (video r)) (searchByTopics VIDEOS_DATA query)) /\
  (length (searchByTopics VIDEOS_DATA query) <= length VIDEOS_DATA)%nat.
Proof.
  destruct (String.eqb_spec query "") as [-> | Hq].
  - rewrite searchByTopics_empty_query. split; [constructor | cbn; lia].
  - rewrite (searchByTopics_unfold _ _ Hq).
    pose proof (sort_Permutation byScoreDesc
                  (filter (fun r => 0 <? score r) (scored VIDEOS_DATA query))) as Hperm.
    split.
    + apply (Permutation_NoDup (Permutation_sym (Permutation_map _ Hperm))).
      apply distinct_keys_kept. unfold scored. rewrite map_map. exact Hids.
    + rewrite (Permutation_length Hperm).
      etransitivity; [apply filter_length_le|].
      unfold scored. now rewrite length_map.
Qed.

Lemma search_returns_each_video_once_witness :
  NoDup (map (fun r => id (video r)) (searchByTopics Sample.catalog "gaya gerak")) /\
  (length (searchByTopics Sample.catalog "gaya gerak") <= 3)%nat.
Proof.
  apply (search_returns_each_video_once Sample.catalog "gaya gerak").
  repeat constructor; cbn; intuition discriminate.
Defined.

(* ===================================================================== *)
(** * The answer of the metadata request, out of its code fence *)
(* ===================================================================== *)

Module FenceFacts.

Lemma lstrip_blank_app (w s : string) :
  Py.blank w = true -> Py.lstrip (w ++ s) = Py.lstrip s.
Proof.
  induction w as [|c w IH]; intros H; [reflexivity|].
  cbn in H. apply andb_true_iff in H. destruct H as [Hc Hw].
  cbn [append Py.lstrip]. rewrite Hc. now apply IH.
Qed.

Lemma rstrip_blank (w : string) : Py.blank w = true -> Py.rstrip w = "".
Proof.
  induction w as [|c w IH]; intros H; [reflexivity|].
  cbn in H. apply andb_true_iff in H. destruct H as [Hc Hw].
  cbn [Py.rstrip]. now rewrite (IH Hw), Hc.
Qed.

Lemma rstrip_app_blank (a w : string) :
  Py.blank w = true -> Py.rstrip (a ++ w) = Py.rstrip a.
Proof.
  intros Hw. induction a as [|c a IH]; [now apply rstrip_blank|].
  cbn [append Py.rstrip]. now rewrite IH.
Qed.

(** Nothing is stripped from the right of a text that ends in a
    character other than whitespace. *)
Lemma rstrip_ends_nonspace (a : string) (x : ascii) :
  Py.is_space x = false ->
  Py.rstrip (a ++ String x "") = (a ++ String x "")%string.
Proof.
  intros Hx. induction a as [|c a IH].
  - cbn. now rewrite Hx.
  - cbn [append Py.rstrip]. rewrite IH.
    destruct (a ++ String x "")%string eqn:E; [|reflexivity].
    destruct a; discriminate E.
Qed.

(** Text without a backtick joins the piece being read. *)
Lemma split_from_plain (x cur rest : string) :
  occurs backtick x = false ->
  Py.split_from fence 0 cur (x ++ rest) = Py.split_from fence 0 (cur ++ x) rest.
Proof.
  revert cur. induction x as [|c x IH]; intros cur H.
  - cbn [append]. now rewrite NumberFacts.append_nil_r.
  - cbn in H. apply orb_false_iff in H. destruct H as [Hc Hx].
    cbn [append Py.split_from].
    assert (Hp : String.prefix fence (String c (x ++ rest)) = false).
    { unfold fence. cbn [String.prefix].
      destruct (ascii_dec "`" c) as [<- | _]; [discriminate Hc | reflexivity]. }
    rewrite Hp, (IH _ Hx), NumberFacts.append_assoc. reflexivity.
Qed.

(** At a fence the piece being read ends and the next one starts after
    the fence. *)
Lemma split_from_fence (cur rest : string) :
  Py.split_from fence 0 cur (fence ++ rest) = cur :: Py.split_from fence 0 "" rest.
Proof.
  unfold fence. cbn [append Py.split_from String.prefix String.length Nat.sub].
  destruct (ascii_dec "`" "`") as [_ | Hn]; [|congruence].
  destruct rest; reflexivity.
Qed.

(** The piece between an opening fence and the next one. *)
Lemma split_fenced (x w : string) :
  occurs backtick x = false ->
  nth 1 (Py.split fence (fence ++ x ++ fence ++ w)) "" = x.
Proof.
  intros Hx. unfold Py.split.
  rewrite split_from_fence, (split_from_plain x "" (fence ++ w) Hx), split_from_fence.
  reflexivity.
Qed.

(** The stripped answer when the fenced text is surrounded by
    whitespace. *)
Lemma strip_fenced (ws1 ws2 x : string) :
  Py.blank ws1 = true -> Py.blank ws2 = true ->
  Py.strip (ws1 ++ fence ++ x ++ fence ++ ws2) = (fence ++ x ++ fence)%string.
Proof.
  intros H1 H2. unfold Py.strip. rewrite (lstrip_blank_app ws1 _ H1).
  unfold fence at 1. cbn [append Py.lstrip].
  change (Py.is_space "`") with false. cbv iota.
  change (String "`" (String "`" (String "`" (x ++ fence ++ ws2))))%string
    with (fence ++ (x ++ (fence ++ ws2)))%string.
  replace (fence ++ x ++ fence ++ ws2)%string
    with (((fence ++ x ++ "``") ++ String "`" "") ++ ws2)%string
    by (unfold fence; rewrite !NumberFacts.append_assoc; reflexivity).
  rewrite (rstrip_app_blank _ ws2 H2), rstrip_ends_nonspace by reflexivity.
  unfold fence. rewrite !NumberFacts.append_assoc. reflexivity.
Qed.

End FenceFacts.

(** X19: an answer that is a code fence around a body without
    backticks, with whitespace before and after, is unwrapped to the
    stripped body, whether the fence is labelled [json] or, the body not
    itself beginning with [json], bare. *)
Theorem fenced_answer_unwrapped (ws1 ws2 body : string)
  (Hws1 : Py.blank ws1 = true) (Hws2 : Py.blank ws2 = true)
  (Hbody : occurs backtick body = false) :
  result_text (ws1 ++ fence ++ "json" ++ body ++ fence ++ ws2) = Py.strip body /\
  (Py.startswith body "json" = false ->
   result_text (ws1 ++ fence ++ body ++ fence ++ ws2) = Py.strip body).
Proof.
  split.
  - unfold result_text. cbv zeta.
    change (ws1 ++ fence ++ "json" ++ body ++ fence ++ ws2)%string
      with (ws1 ++ fence ++ ("json" ++ body) ++ fence ++ ws2)%string.
    rewrite (FenceFacts.strip_fenced ws1 ws2 _ Hws1 Hws2).
    change (Py.startswith (fence ++ ("json" ++ body) ++ fence) fence) with true.
    cbv iota.
    replace (fence ++ ("json" ++ body) ++ fence)%string
      with (fence ++ ("json" ++ body) ++ fence ++ "")%string
      by (now rewrite (NumberFacts.append_nil_r fence)).
    rewrite FenceFacts.split_fenced by exact Hbody.
    unfold Py.startswith.
    rewrite (proj2 (StringFacts.prefix_iff "json" ("json" ++ body)))
      by (now exists body).
    reflexivity.
  - intros Hjson. unfold result_text. cbv zeta.
    rewrite (FenceFacts.strip_fenced ws1 ws2 _ Hws1 Hws2).
    unfold Py.startswith at 1.
    rewrite (proj2 (StringFacts.prefix_iff fence (fence ++ body ++ fence)))
      by (now exists (body ++ fence)%string).
    replace (fence ++ body ++ fence)%string
      with (fence ++ body ++ fence ++ "")%string
      by (now rewrite (NumberFacts.append_nil_r fence)).
    rewrite FenceFacts.split_fenced by exact Hbody.
    now rewrite Hjson.
Qed.

Lemma fenced_answer_unwrapped_witness :
  result_text ("  ```json" ++ newline ++ "{x: 1} " ++ newline ++ "```" ++ newline)
    = "{x: 1}".
Proof.
  apply (fenced_answer_unwrapped "  " newline (newline ++ "{x: 1} " ++ newline));
    reflexivity.
Defined.

(* ===================================================================== *)
(** * Asking for a video by its own words *)
(* ===================================================================== *)

Lemma includes_join (sep : string) (l : list string) (t : string) :
  In t l -> JS.includes (JS.join sep l) t = true.
Proof.
  induction l as [|x l IH]; intros H; [destruct H|].
  destruct l as [|y l].
  - destruct H as [<- | []]. apply JSFacts.includes_refl.
  - change (JS.join sep (x :: y :: l)) with (x ++ sep ++ JS.join sep (y :: l))%string.
    destruct H as [<- | H].
    + apply StringFacts.includes_app_l, JSFacts.includes_refl.
    + apply JSFacts.includes_app_r, JSFacts.includes_app_r. now apply IH.
Qed.

(** The text of a video holds its lowercased title and each of its
    lowercased topics and keywords. *)
Lemma allText_holds (v : Video) (q : string) :
  JS.or_else (title v) "" = q \/
  In q (JS.or_else (topics v) []) \/ In q (JS.or_else (keywords v) []) ->
  JS.includes (allText v) (JS.toLowerCase q) = true.
Proof.
  rewrite allText_spec. unfold Spec.allText, Spec.topicsText, Spec.keywordsText,
    Spec.titleText.
  intros [<- | [H | H]].
  - apply JSFacts.includes_app_r, (JSFacts.includes_app_r " ").
    apply JSFacts.includes_app_r, (JSFacts.includes_app_r " ").
    apply JSFacts.includes_refl.
  - apply StringFacts.includes_app_l, includes_join. now apply in_map.
  - apply JSFacts.includes_app_r, (JSFacts.includes_app_r " ").
    apply StringFacts.includes_app_l, includes_join. now apply in_map.
Qed.

(** X20: a non-empty query that is, up to letter case, the title of a
    catalog video or one of its topics or keywords scores that video at
    least 20, so the search returns it. *)
Theorem own_words_find_video (VIDEOS_DATA : list Video) (query : string) (v : Video)
  (q : string)
  (Hquery : query <> "")
  (Hcase : JS.toLowerCase query = JS.toLowerCase q)
  (Hv : In v VIDEOS_DATA)
  (Hown : JS.or_else (title v) "" = q \/
          In q (JS.or_else (topics v) []) \/ In q (JS.or_else (keywords v) [])) :
  20 <= videoScore query v /\
  In (mkScored v (videoScore query v)) (searchByTopics VIDEOS_DATA query).
Proof.
  pose proof (allText_holds v q Hown) as Hinc. rewrite <- Hcase in Hinc.
  assert (H20 : 20 <= videoScore query v).
  { rewrite videoScore_closed. unfold Spec.searchScore.
    rewrite <- allText_spec, Hinc. unfold Spec.points.
    assert (0 <= Spec.total (map (Spec.wordScore v) (Spec.tokens query))).
    { apply total_nonneg. intros x Hx. apply in_map_iff in Hx.
      destruct Hx as (w & <- & _). apply wordScore_nonneg. }
    lia. }
  split; [exact H20|]. apply scored_positive_In; [assumption | assumption | lia].
Qed.

Lemma own_words_find_video_witness :
  20 <= videoScore "GESEKAN" Sample.gaya /\
  In (mkScored Sample.gaya (videoScore "GESEKAN" Sample.gaya))
     (searchByTopics Sample.catalog "GESEKAN").
Proof.
  apply (own_words_find_video Sample.catalog "GESEKAN" Sample.gaya "gesekan").
  - discriminate.
  - reflexivity.
  - right. right. now left.
  - right. left. right. now left.
Defined.

(* ===================================================================== *)
(** * Seeking inside the current video *)
(* ===================================================================== *)

(** X21: once the conversation has loaded a video, a [navigate_video]
    call that names no video, or the current one, reloads nothing: the
    page is unchanged, the player seeks to the timestamp (0 when none is
    given), and the success message is sent. *)
Theorem navigate_within_current_video (VIDEOS_DATA : list Video) (calls : list Call)
  (args : Args) (callId : string)
  (Hloaded : currentVideoId (fst (handleCalls VIDEOS_DATA calls initialPage)) <> None)
  (Hsame : isOtherVideo (arg_video_id args)
             (fst (handleCalls VIDEOS_DATA calls initialPage)) = false) :
  let pg := fst (handleCalls VIDEOS_DATA calls initialPage) in
  let t := JS.or_else (arg_timestamp args) 0 in
  handleNavigateVideo VIDEOS_DATA args callId pg =
  (pg, [Seek t; Send callId (Moved ("Video berpindah ke detik " ++ JS.toString t))]).
Proof.
  intros pg t. subst pg t.
  assert (Hok : pageOk VIDEOS_DATA (fst (handleCalls VIDEOS_DATA calls initialPage)))
    by (apply handleCalls_ok; left; split; reflexivity).
  set (pg := fst (handleCalls VIDEOS_DATA calls initialPage)) in *.
  destruct Hok as [[Hnone _] | (v & _ & _ & Hsrc & Hurl)]; [contradiction|].
  unfold handleNavigateVideo. cbv zeta. rewrite Hsame.
  unfold navigateToTimestamp. rewrite Hsrc.
  destruct (url v); [congruence | reflexivity].
Qed.

Lemma navigate_within_current_video_witness :
  let calls := [mkCall "search_video" (mkCallArgs (mkArgs None None) (Some "newton")) "call_1"] in
  let pg := fst (handleCalls Sample.catalog calls initialPage) in
  handleNavigateVideo Sample.catalog (mkArgs (Some "video_001") (Some 30)) "call_2" pg =
  (pg, [Seek 30; Send "call_2" (Moved "Video berpindah ke detik 30")]).
Proof.
  apply (navigate_within_current_video Sample.catalog
           [mkCall "search_video" (mkCallArgs (mkArgs None None) (Some "newton")) "call_1"]
           (mkArgs (Some "video_001") (Some 30)) "call_2").
  - discriminate.
  - reflexivity.
Defined.
